(** * ts-backed-enum: a shallow embedding of [src/index.ts] and [dist/index.js]

    The development models the JavaScript objects that [createBackedEnum]
    builds: a heap of objects with identity, the [BackedEnum] instance with
    its own-property table (the class fields [cases] and [map] live in the
    same table as the accessors installed by [Object.defineProperty]), the
    array behind [cases], the [Map] behind [map], and the case instances.
    Operations that can throw in JavaScript return in an error monad. *)

From Stdlib Require Import ZArith String Ascii List Bool Lia.
From stdpp Require Import base list strings gmap pretty.

Open Scope string_scope.
Open Scope list_scope.

(** ** Primitive data *)

(** JavaScript numbers.  Finite numbers are restricted to the integer-valued
    ones (the values an enumeration carries); [+0] and [-0] are one value
    here, which both [===] and the [Map]'s SameValueZero agree with. *)
Inductive number : Type :=
  | NaN
  | Infinity (negative : bool)
  | Fin (z : Z).

Abbreviation loc := nat.

(** Runtime values; objects are references into the heap. *)
Inductive jsval : Type :=
  | VUndefined
  | VNull
  | VBoolean (b : bool)
  | VNumber (n : number)
  | VString (s : string)
  | VBigInt (z : Z)
  | VSymbol (id : nat)
  | VRef (l : loc).

(** [string | number], the value type of [EnumLike]. *)
Inductive prim : Type :=
  | PString (s : string)
  | PNumber (n : number).

Definition prim_value (p : prim) : jsval :=
  match p with
  | PString s => VString s
  | PNumber n => VNumber n
  end.

#[global] Instance number_eq_dec : EqDecision number.
Proof. solve_decision. Defined.

#[global] Instance jsval_eq_dec : EqDecision jsval.
Proof. solve_decision. Defined.

#[global] Instance prim_eq_dec : EqDecision prim.
Proof. solve_decision. Defined.

(** The [Map]'s key comparison.  SameValueZero equates [NaN] with [NaN] and
    [+0] with [-0]; on this value type it is structural equality. *)
Definition same_value_zero (a b : jsval) : bool := bool_decide (a = b).

(** [===]: as SameValueZero except that [NaN] differs from itself. *)
Definition strict_equals (a b : jsval) : bool :=
  match a, b with
  | VNumber NaN, _ | _, VNumber NaN => false
  | _, _ => bool_decide (a = b)
  end.

(** ** [isNaN(Number(key))] on a property key

    [Number] applied to a string follows the StringNumericLiteral grammar of
    ECMAScript (StringToNumber): white space is trimmed, the empty string is
    0, and the rest must be a signed decimal literal, [Infinity], or an
    unsigned binary, octal or hexadecimal integer literal; everything else is
    [NaN].  A string is read as its sequence of code units below 256. *)
Module StringToNumber.

Definition code (c : ascii) : nat := nat_of_ascii c.

Definition between (lo hi : nat) (c : ascii) : bool :=
  (lo <=? code c)%nat && (code c <=? hi)%nat.

Definition DecimalDigit (c : ascii) : bool := between 48 57 c.
Definition BinaryDigit (c : ascii) : bool := between 48 49 c.
Definition OctalDigit (c : ascii) : bool := between 48 55 c.
Definition HexDigit (c : ascii) : bool :=
  between 48 57 c || between 65 70 c || between 97 102 c.

(** TAB, LF, VT, FF, CR, SP and NBSP. *)
Definition StrWhiteSpaceChar (c : ascii) : bool :=
  between 9 13 c || (code c =? 32)%nat || (code c =? 160)%nat.

Fixpoint trim_start (s : list ascii) : list ascii :=
  match s with
  | c :: t => if StrWhiteSpaceChar c then trim_start t else s
  | [] => []
  end.

Definition trim (s : list ascii) : list ascii :=
  rev (trim_start (rev (trim_start s))).

(** The longest prefix of decimal digits, and what follows it. *)
Fixpoint span_digits (s : list ascii) : list ascii * list ascii :=
  match s with
  | c :: t =>
      if DecimalDigit c
      then let '(d, r) := span_digits t in (c :: d, r)
      else ([], s)
  | [] => ([], [])
  end.

Definition nonempty (s : list ascii) : bool :=
  match s with [] => false | _ => true end.

Definition is_sign (c : ascii) : bool :=
  (code c =? 43)%nat || (code c =? 45)%nat.

Definition strip_sign (s : list ascii) : list ascii :=
  match s with
  | c :: t => if is_sign c then t else s
  | [] => []
  end.

(** Nothing, or exactly one ExponentPart. *)
Definition ExponentPart_opt (r : list ascii) : bool :=
  match r with
  | [] => true
  | e :: r' =>
      ((code e =? 101)%nat || (code e =? 69)%nat)
      && nonempty (strip_sign r') && forallb DecimalDigit (strip_sign r')
  end.

Definition StrUnsignedDecimalLiteral (s : list ascii) : bool :=
  if bool_decide (s = list_ascii_of_string "Infinity") then true
  else
    let '(d1, r) := span_digits s in
    match r with
    | c :: r' =>
        if (code c =? 46)%nat
        then let '(d2, r'') := span_digits r' in
             (nonempty d1 || nonempty d2) && ExponentPart_opt r''
        else nonempty d1 && ExponentPart_opt r
    | [] => nonempty d1
    end.

Definition StrDecimalLiteral (s : list ascii) : bool :=
  StrUnsignedDecimalLiteral (strip_sign s).

Definition NonDecimalIntegerLiteral (s : list ascii) : bool :=
  match s with
  | z :: p :: ds =>
      (code z =? 48)%nat && nonempty ds &&
      (if (code p =? 98)%nat || (code p =? 66)%nat then forallb BinaryDigit ds
       else if (code p =? 111)%nat || (code p =? 79)%nat then forallb OctalDigit ds
       else if (code p =? 120)%nat || (code p =? 88)%nat then forallb HexDigit ds
       else false)
  | _ => false
  end.

Definition StringNumericLiteral (s : list ascii) : bool :=
  match trim s with
  | [] => true
  | t => StrDecimalLiteral t || NonDecimalIntegerLiteral t
  end.

End StringToNumber.

(** [isNaN(Number(key))]. *)
Definition isNaN_Number (key : string) : bool :=
  negb (StringToNumber.StringNumericLiteral (list_ascii_of_string key)).

(** ** Classes, objects and the heap *)

(** A case class: its identity and the identities of the classes further up
    its prototype chain.  [EnumCase] is the root. *)
Record class : Type := Class {
  class_id : nat;
  class_supers : list nat;
}.

Definition class_chain (C : class) : list nat := class_id C :: class_supers C.

Definition EnumCase : class := Class 0 [].

Inductive object : Type :=
  | OCase (cls : class) (name : string) (val : jsval)
  | OArray (elems : list jsval)
  | OMap (entries : list (jsval * jsval))
  | OBackedEnum (props : list (string * jsval))
  | OPlain (props : list (string * jsval))
  | OFunction.

Abbreviation heap := (list object).

Inductive error : Type :=
  | TypeError (msg : string)
  | RangeError (msg : string).

Inductive outcome (A : Type) : Type :=
  | Returns (a : A) (h : heap)
  | Throws (e : error).
Arguments Returns {A} a h.
Arguments Throws {A} e.

(** Computations over the heap that may throw. *)
Definition M (A : Type) : Type := heap -> outcome A.

Definition ret {A} (a : A) : M A := fun h => Returns a h.

Definition bind {A B} (m : M A) (k : A -> M B) : M B :=
  fun h => match m h with
           | Returns a h' => k a h'
           | Throws e => Throws e
           end.

Definition throw {A} (e : error) : M A := fun _ => Throws e.

Notation "'do' x <- m ; k" := (bind m (fun x => k))
  (at level 10, x name, m at level 100, k at level 200).
Notation "'run' m ; k" := (bind m (fun _ => k))
  (at level 10, m at level 100, k at level 200).

(** *** Own-property tables and [Map] entry lists, both in insertion order *)

Fixpoint prop_get (props : list (string * jsval)) (k : string) : option jsval :=
  match props with
  | [] => None
  | (k', v) :: t => if decide (k' = k) then Some v else prop_get t k
  end.

(** Defining a property that exists replaces its value where it stands;
    a new one goes last. *)
Fixpoint prop_define (props : list (string * jsval)) (k : string) (v : jsval)
  : list (string * jsval) :=
  match props with
  | [] => [(k, v)]
  | (k', v') :: t =>
      if decide (k' = k) then (k, v) :: t else (k', v') :: prop_define t k v
  end.

Fixpoint entries_get (es : list (jsval * jsval)) (k : jsval) : option jsval :=
  match es with
  | [] => None
  | (k', v) :: t => if same_value_zero k' k then Some v else entries_get t k
  end.

Fixpoint entries_set (es : list (jsval * jsval)) (k v : jsval)
  : list (jsval * jsval) :=
  match es with
  | [] => [(k, v)]
  | (k', v') :: t =>
      if same_value_zero k' k then (k', v) :: t else (k', v') :: entries_set t k v
  end.

(** *** Heap operations *)

Definition alloc (o : object) : M loc :=
  fun h => Returns (List.length h) (h ++ [o]).

(** [this.k] for an own data property of the [BackedEnum] instance. *)
Definition get_field (this : loc) (k : string) : M jsval :=
  fun h => match h !! this with
           | Some (OBackedEnum props) => Returns (default VUndefined (prop_get props k)) h
           | _ => Returns VUndefined h
           end.

(** [Object.defineProperty(this, k, { value: v, enumerable: true })], also
    the definition of a class field. *)
Definition defineProperty (this : loc) (k : string) (v : jsval) : M unit :=
  fun h => match h !! this with
           | Some (OBackedEnum props) =>
               Returns tt (<[this := OBackedEnum (prop_define props k v)]> h)
           | _ => Throws (TypeError "Object.defineProperty called on non-object")
           end.

(** [recv.push(v)]: only an array has [push]. *)
Definition Array_push (recv : jsval) (v : jsval) : M unit :=
  fun h => match recv with
           | VRef l =>
               match h !! l with
               | Some (OArray es) => Returns tt (<[l := OArray (es ++ [v])]> h)
               | _ => Throws (TypeError "push is not a function")
               end
           | _ => Throws (TypeError "push is not a function")
           end.

(** [recv.set(k, v)]: only a [Map] has [set]. *)
Definition Map_set (recv : jsval) (k v : jsval) : M unit :=
  fun h => match recv with
           | VRef l =>
               match h !! l with
               | Some (OMap es) => Returns tt (<[l := OMap (entries_set es k v)]> h)
               | _ => Throws (TypeError "set is not a function")
               end
           | _ => Throws (TypeError "set is not a function")
           end.

(** [recv.get(k)]: only a [Map] has [get]. *)
Definition Map_get (recv : jsval) (k : jsval) : M jsval :=
  fun h => match recv with
           | VRef l =>
               match h !! l with
               | Some (OMap es) => Returns (default VUndefined (entries_get es k)) h
               | _ => Throws (TypeError "get is not a function")
               end
           | _ => Throws (TypeError "get is not a function")
           end.

(** [v.value]. *)
Definition member_value (v : jsval) : M jsval :=
  fun h => match v with
           | VUndefined | VNull =>
               Throws (TypeError "Cannot read properties of null or undefined")
           | VRef l =>
               match h !! l with
               | Some (OCase _ _ x) => Returns x h
               | Some (OPlain props) | Some (OBackedEnum props) =>
                   Returns (default VUndefined (prop_get props "value")) h
               | _ => Returns VUndefined h
               end
           | _ => Returns VUndefined h
           end.

Fixpoint mapM {A B} (f : A -> M B) (l : list A) : M (list B) :=
  match l with
  | [] => ret []
  | a :: t => do b <- f a; do bs <- mapM f t; ret (b :: bs)
  end.

(** [recv.map(f)]: only an array has [map]; the result is a new array. *)
Definition Array_map (recv : jsval) (f : jsval -> M jsval) : M jsval :=
  fun h => match recv with
           | VRef l =>
               match h !! l with
               | Some (OArray es) =>
                   (do vs <- mapM f es; do r <- alloc (OArray vs); ret (VRef r)) h
               | _ => Throws (TypeError "map is not a function")
               end
           | _ => Throws (TypeError "map is not a function")
           end.

(** *** [typeof] and [instanceof] *)

Inductive js_type : Type :=
  | TUndefined | TObject | TBoolean | TNumber | TString | TBigInt | TSymbol
  | TFunction.

#[global] Instance js_type_eq_dec : EqDecision js_type.
Proof. solve_decision. Defined.

Definition typeof (h : heap) (v : jsval) : js_type :=
  match v with
  | VUndefined => TUndefined
  | VNull => TObject
  | VBoolean _ => TBoolean
  | VNumber _ => TNumber
  | VString _ => TString
  | VBigInt _ => TBigInt
  | VSymbol _ => TSymbol
  | VRef l => match h !! l with Some OFunction => TFunction | _ => TObject end
  end.

(** [v instanceof C]: [C.prototype] lies on the prototype chain of [v]. *)
Definition instanceof (h : heap) (v : jsval) (C : class) : bool :=
  match v with
  | VRef l =>
      match h !! l with
      | Some (OCase cls _ _) => bool_decide (class_id C ∈ class_chain cls)
      | _ => false
      end
  | _ => false
  end.

(** ** The program: [createBackedEnum] (src/index.ts) *)

(** [EnumLike = Readonly<Record<string, string | number>>]: the own
    enumerable properties of the definition, in the order [Object.keys]
    lists them (a JavaScript object holds each key once). *)
Definition EnumLike := list (string * prim).

Definition Object_keys (baseEnum : EnumLike) : list string := map fst baseEnum.

(** [baseEnum[key]]. *)
Fixpoint enum_get (baseEnum : EnumLike) (key : string) : jsval :=
  match baseEnum with
  | [] => VUndefined
  | (k, p) :: t => if decide (k = key) then prim_value p else enum_get t key
  end.

(** [new CaseClass(name, value)]: the [EnumCase] constructor, which a
    composed case class inherits, stores both fields on a fresh object.  A
    case class whose own constructor throws or returns another object is
    outside this model. *)
Definition new_case (CaseClass : class) (name : string) (v : jsval) : M jsval :=
  do l <- alloc (OCase CaseClass name v);
  ret (VRef l).

Fixpoint for_of {A} (l : list A) (body : A -> M unit) : M unit :=
  match l with
  | [] => ret tt
  | a :: t => run body a; for_of t body
  end.

(** The body of the constructor's loop, lines 79-88. *)
Definition constructor_body (baseEnum : EnumLike) (CaseClass : class)
    (this : loc) (key : string) : M unit :=
  let value := enum_get baseEnum key in
  do instance <- new_case CaseClass key value;
  do cases <- get_field this "cases";
  run Array_push cases instance;
  do map <- get_field this "map";
  run Map_set map value instance;
  defineProperty this key instance.

(** [new BackedEnum()]: the two field initialisers, then the constructor. *)
Definition BackedEnum_new (baseEnum : EnumLike) (CaseClass : class)
    (keys : list string) : M loc :=
  do this <- alloc (OBackedEnum []);
  do a <- alloc (OArray []);
  run defineProperty this "cases" (VRef a);
  do m <- alloc (OMap []);
  run defineProperty this "map" (VRef m);
  run for_of keys (constructor_body baseEnum CaseClass this);
  ret this.

(** Line 68. *)
Definition enum_keys (baseEnum : EnumLike) : list string :=
  List.filter (fun key => isNaN_Number key) (Object_keys baseEnum).

(** Lines 64-112; the default [CaseClass = EnumCase] is passed explicitly. *)
Definition createBackedEnum (baseEnum : EnumLike) (CaseClass : class) : M loc :=
  let keys := enum_keys baseEnum in
  BackedEnum_new baseEnum CaseClass keys.

(** [from], lines 92-104.  [depth] is the call-stack budget: the method calls
    itself, and JavaScript answers unbounded recursion with a [RangeError]. *)
Fixpoint BackedEnum_from (depth : nat) (CaseClass : class) (this : loc)
    (value : jsval) : M jsval :=
  match depth with
  | 0 => throw (RangeError "Maximum call stack size exceeded")
  | S depth' =>
      fun h =>
        let valueType := typeof h value in
        if instanceof h value CaseClass then
          (do inner <- member_value value;
           BackedEnum_from depth' CaseClass this inner) h
        else if bool_decide (valueType <> TString)
                && bool_decide (valueType <> TNumber) then
          Returns VUndefined h
        else
          (do map <- get_field this "map";
           Map_get map value) h
  end.

(** [values], lines 106-108. *)
Definition BackedEnum_values (this : loc) : M jsval :=
  do cases <- get_field this "cases";
  Array_map cases member_value.

(** [from] of the compiled build, dist/index.js lines 33-35. *)
Definition dist_from (this : loc) (value : jsval) : M jsval :=
  do map <- get_field this "map";
  Map_get map value.

(** ** Using a collection *)

(** The own property [k] of the object at [o], if it has one. *)
Definition own_property (h : heap) (o : loc) (k : string) : option jsval :=
  match h !! o with
  | Some (OBackedEnum props) => prop_get props k
  | _ => None
  end.

(** [collection.from(x)]: an own property named [from] shadows the method of
    the prototype; the own properties of a collection hold case instances,
    which cannot be called. *)
Definition call_from (depth : nat) (CaseClass : class) (collection : loc)
    (x : jsval) : M jsval :=
  fun h => match own_property h collection "from" with
           | Some _ => Throws (TypeError "collection.from is not a function")
           | None => BackedEnum_from depth CaseClass collection x h
           end.

(** [collection.values()]. *)
Definition call_values (collection : loc) : M jsval :=
  fun h => match own_property h collection "values" with
           | Some _ => Throws (TypeError "collection.values is not a function")
           | None => BackedEnum_values collection h
           end.

(** [v[i]] and [v.length]: an array answers from its elements, any other
    object modelled here has neither. *)
Definition index (h : heap) (v : jsval) (i : nat) : jsval :=
  match v with
  | VRef l =>
      match h !! l with
      | Some (OArray es) => default VUndefined (es !! i)
      | _ => VUndefined
      end
  | _ => VUndefined
  end.

Definition array_elems (h : heap) (v : jsval) : option (list jsval) :=
  match v with
  | VRef l => match h !! l with Some (OArray es) => Some es | _ => None end
  | _ => None
  end.

(** [v.name]. *)
Definition member_name (h : heap) (v : jsval) : jsval :=
  match v with
  | VRef l => match h !! l with Some (OCase _ n _) => VString n | _ => VUndefined end
  | _ => VUndefined
  end.

(** [collection.cases], [collection[k]]. *)
Definition read (h : heap) (collection : loc) (k : string) : jsval :=
  default VUndefined (own_property h collection k).

(** *** The enumerations of tests/main.test.ts *)

Definition RoleEnum : EnumLike :=
  [("1", PString "ADMIN"); ("2", PString "USER"); ("3", PString "GUEST");
   ("ADMIN", PNumber (Fin 1)); ("USER", PNumber (Fin 2));
   ("GUEST", PNumber (Fin 3))].

Definition StatusEnum : EnumLike :=
  [("PENDING", PString "pending"); ("ACTIVE", PString "active");
   ("ARCHIVED", PString "archived")].

Definition TwinEnum : EnumLike :=
  [("A", PNumber (Fin 1)); ("B", PNumber (Fin 1))].

(** ** What construction leaves in the heap *)

(** No case-name of the definition is one of [names].  The names that
    matter are the collection's own: its fields [cases] and [map], and the
    methods [from] and [values] of its prototype. *)
Definition avoids (names : list string) (baseEnum : EnumLike) : bool :=
  forallb (fun key => negb (bool_decide (key ∈ names))) (enum_keys baseEnum).

(** The location of each case: the instances follow the collection, its
    array and its map in allocation order. *)
Definition bindings (keys : list string) (first : loc) : list (string * loc) :=
  zip keys (seq first (List.length keys)).

Definition accessors (bs : list (string * loc)) (props : list (string * jsval))
  : list (string * jsval) :=
  fold_left (fun ps b => prop_define ps b.1 (VRef b.2)) bs props.

Definition reverse_index (baseEnum : EnumLike) (bs : list (string * loc))
    (es : list (jsval * jsval)) : list (jsval * jsval) :=
  fold_left (fun es b => entries_set es (enum_get baseEnum b.1) (VRef b.2)) bs es.

Definition instances (baseEnum : EnumLike) (CaseClass : class)
    (keys : list string) : list object :=
  map (fun k => OCase CaseClass k (enum_get baseEnum k)) keys.

Definition built_heap (baseEnum : EnumLike) (CaseClass : class) (h0 : heap) : heap :=
  let keys := enum_keys baseEnum in
  let this := List.length h0 in
  let bs := bindings keys (this + 3) in
  h0 ++ OBackedEnum (accessors bs [("cases", VRef (this + 1)); ("map", VRef (this + 2))])
     :: OArray (map (fun b => VRef b.2) bs)
     :: OMap (reverse_index baseEnum bs [])
     :: instances baseEnum CaseClass keys.

(** ** Trait composition: [createEnumCase] *)

(** A method, as a function of the heap, the receiver's [name] and
    [value], and the arguments. *)
Definition method : Type := heap -> string -> jsval -> list jsval -> jsval.

(** [String(v)] for the backing values: a string is itself, an integer
    prints in decimal (as JavaScript does below 10^21 in magnitude). *)
Definition String_ (v : jsval) : jsval :=
  match v with
  | VString s => VString s
  | VNumber NaN => VString "NaN"
  | VNumber (Infinity false) => VString "Infinity"
  | VNumber (Infinity true) => VString "-Infinity"
  | VNumber (Fin z) => VString (pretty z)
  | _ => VUndefined
  end.

(** A constructible case type: its class and its method table. *)
Record case_type : Type := CaseType {
  ct_class : class;
  ct_methods : gmap string method;
}.

(** The class [EnumCase] with its [toString], lines 19-28. *)
Definition EnumCase_type : case_type :=
  CaseType EnumCase {[ "toString" := fun _ _ value _ => String_ value ]}.

(** Modelled from the spec: [withTraits] of the package
    [@daniloivk/ts-traits], which is not part of this repository's
    sources.  The new type extends [Base]; its method table is seeded with
    the methods of [Base], and the entries of each module are copied over
    it in the supplied order, a later entry replacing an earlier one of
    the same name. *)
Definition withTraits (id : nat) (Base : case_type)
    (traits : list (gmap string method)) : case_type :=
  CaseType (Class id (class_chain (ct_class Base)))
           (fold_left (fun table trait => trait ∪ table) traits (ct_methods Base)).

(** Lines 30-37. *)
Definition createEnumCase (id : nat) (traits : list (gmap string method))
  : case_type :=
  withTraits id EnumCase_type traits.

(** [instance.f(args)] for an instance of the case type. *)
Definition call_method (T : case_type) (h : heap) (instance : jsval)
    (f : string) (args : list jsval) : option jsval :=
  match instance with
  | VRef l =>
      match h !! l, ct_methods T !! f with
      | Some (OCase _ name value), Some m => Some (m h name value args)
      | _, _ => None
      end
  | _ => None
  end.

(** The traits of tests/main.test.ts. *)
Definition Comparable : gmap string method :=
  {[ "is" := fun h _ value args =>
       match args with
       | other :: _ =>
           match member_value other h with
           | Returns v _ => VBoolean (strict_equals value v)
           | Throws _ => VUndefined
           end
       | [] => VUndefined
       end ]}.

Definition Stringable : gmap string method :=
  {[ "toString" := fun _ name _ _ => VString name ]}.

Definition Valuable : gmap string method :=
  {[ "toString" := fun _ _ value _ => String_ value ]}.

Definition RoleCase : case_type := createEnumCase 1 [Comparable; Stringable].

(** ** The claims, as properties of a definition, a case class and the heap
    the collection is built in *)

(** No case-name after position [j] carries the backing value of [k]. *)
Definition last_with_value (baseEnum : EnumLike) (j : nat) (k : string) : Prop :=
  forall j' k', j < j' -> enum_keys baseEnum !! j' = Some k' ->
                enum_get baseEnum k' <> enum_get baseEnum k.

(** [cases] holds one instance per filtered case-name, and their names are
    the filtered keys in the definition's order. *)
Definition cases_in_definition_order (baseEnum : EnumLike) (CaseClass : class)
    (h0 : heap) : Prop :=
  exists this h es,
    createBackedEnum baseEnum CaseClass h0 = Returns this h /\
    array_elems h (read h this "cases") = Some es /\
    List.length es = List.length (enum_keys baseEnum) /\
    NoDup es /\
    map (member_name h) es = map VString (enum_keys baseEnum).

(** A case is built for exactly the keys whose [Number] is [NaN]: each such
    key has an accessor bound to its instance, which is in [cases]; a key
    that parses as a number has no accessor, names no case, and no entry of
    the reverse index leads to a case with that name. *)
Definition numeric_keys_excluded (baseEnum : EnumLike) (CaseClass : class)
    (h0 : heap) : Prop :=
  exists this h es m ents,
    createBackedEnum baseEnum CaseClass h0 = Returns this h /\
    array_elems h (read h this "cases") = Some es /\
    read h this "map" = VRef m /\ h !! m = Some (OMap ents) /\
    List.length es = List.length (List.filter isNaN_Number (Object_keys baseEnum)) /\
    forall k, k ∈ Object_keys baseEnum ->
      if isNaN_Number k then
        exists c, own_property h this k = Some (VRef c) /\ VRef c ∈ es /\
                  h !! c = Some (OCase CaseClass k (enum_get baseEnum k))
      else
        own_property h this k = None /\
        (VString k ∉ map (member_name h) es) /\
        forall v c, (v, c) ∈ ents -> member_name h c <> VString k.

(** Construction succeeds, and whenever [k1] and a later [k2] share a value
    whose last carrier is [k2], the reverse index gives [k2]'s instance for
    it, while each name keeps its own instance as accessor and in [cases]. *)
Definition shared_value_last_wins (baseEnum : EnumLike) (CaseClass : class)
    (h0 : heap) : Prop :=
  exists this h,
    createBackedEnum baseEnum CaseClass h0 = Returns this h /\
    forall j1 j2 k1 k2,
      enum_keys baseEnum !! j1 = Some k1 ->
      enum_keys baseEnum !! j2 = Some k2 ->
      j1 < j2 ->
      enum_get baseEnum k1 = enum_get baseEnum k2 ->
      last_with_value baseEnum j2 k2 ->
      exists c1 c2,
        c1 <> c2 /\
        Map_get (read h this "map") (enum_get baseEnum k2) h = Returns (VRef c2) h /\
        read h this k1 = VRef c1 /\ read h this k2 = VRef c2 /\
        index h (read h this "cases") j1 = VRef c1 /\
        index h (read h this "cases") j2 = VRef c2 /\
        h !! c1 = Some (OCase CaseClass k1 (enum_get baseEnum k1)) /\
        h !! c2 = Some (OCase CaseClass k2 (enum_get baseEnum k2)).

(** Every case-name reaches one object through its accessor and through
    [cases]; [from] of its value reaches the same object for the names
    selected by [P]. *)
Definition access_paths_agree_when (P : nat -> string -> Prop)
    (baseEnum : EnumLike) (CaseClass : class) (h0 : heap) : Prop :=
  exists this h,
    createBackedEnum baseEnum CaseClass h0 = Returns this h /\
    forall depth j k,
      enum_keys baseEnum !! j = Some k ->
      exists c v,
        h !! c = Some (OCase CaseClass k v) /\
        read h this k = VRef c /\
        index h (read h this "cases") j = VRef c /\
        member_value (read h this k) h = Returns v h /\
        (P j k -> call_from (S depth) CaseClass this v h = Returns (VRef c) h).

(** C1 as the claim states it: the three paths agree for every case-name. *)
Definition access_paths_agree : EnumLike -> class -> heap -> Prop :=
  access_paths_agree_when (fun _ _ => True).

(** [from(c) === c] for the case at every position of [cases] whose value no
    later case carries. *)
Definition lookup_idempotent (baseEnum : EnumLike) (CaseClass : class)
    (h0 : heap) : Prop :=
  exists this h es,
    createBackedEnum baseEnum CaseClass h0 = Returns this h /\
    array_elems h (read h this "cases") = Some es /\
    List.length es = List.length (enum_keys baseEnum) /\
    forall depth j k,
      enum_keys baseEnum !! j = Some k ->
      last_with_value baseEnum j k ->
      exists c,
        es !! j = Some c /\
        instanceof h c CaseClass = true /\
        call_from (S (S depth)) CaseClass this c h = Returns c h.

(** For a string or a number, [from] returns a case whose backing value is
    exactly the candidate, or [undefined] when no case-name carries it. *)
Definition exact_match_lookup (baseEnum : EnumLike) (CaseClass : class)
    (h0 : heap) : Prop :=
  exists this h,
    createBackedEnum baseEnum CaseClass h0 = Returns this h /\
    forall depth p,
      (exists c k,
         call_from (S depth) CaseClass this (prim_value p) h = Returns (VRef c) h /\
         k ∈ enum_keys baseEnum /\
         h !! c = Some (OCase CaseClass k (prim_value p)))
      \/
      (call_from (S depth) CaseClass this (prim_value p) h = Returns VUndefined h /\
       forall k, k ∈ enum_keys baseEnum -> enum_get baseEnum k <> prim_value p).

(** [values()] returns a new array holding [c.value] for each [c] of
    [cases], position by position: the backing values of the filtered keys
    in order, repeated when shared. *)
Definition values_projection (baseEnum : EnumLike) (CaseClass : class)
    (h0 : heap) : Prop :=
  exists this h es r vs,
    createBackedEnum baseEnum CaseClass h0 = Returns this h /\
    array_elems h (read h this "cases") = Some es /\
    call_values this h = Returns (VRef r) (h ++ [OArray vs]) /\
    r = List.length h /\
    List.length vs = List.length es /\
    (forall j c, es !! j = Some c ->
       exists v, member_value c h = Returns v h /\ vs !! j = Some v) /\
    vs = map (enum_get baseEnum) (enum_keys baseEnum).

(** Neither a string, nor a number, nor an instance of the case class. *)
Definition other_kind (h : heap) (CaseClass : class) (x : jsval) : Prop :=
  instanceof h x CaseClass = false /\
  typeof h x <> TString /\ typeof h x <> TNumber.

(** On every input that is not a case instance [from] returns, and it
    returns [undefined] when the input is neither a string nor a number. *)
Definition absent_not_thrown (baseEnum : EnumLike) (CaseClass : class)
    (h0 : heap) : Prop :=
  exists this h,
    createBackedEnum baseEnum CaseClass h0 = Returns this h /\
    forall depth x,
      instanceof h x CaseClass = false ->
      exists r,
        call_from (S depth) CaseClass this x h = Returns r h /\
        (other_kind h CaseClass x -> r = VUndefined).

(** ** Further observations on a collection *)

(** [Object.keys(collection)]: the class fields and the accessors are all
    enumerable own properties, listed in the order they were defined. *)
Definition collection_keys (h : heap) (collection : loc) : list string :=
  match h !! collection with
  | Some (OBackedEnum props) => map fst props
  | _ => []
  end.

(** The entries of a [Map], in insertion order; [map.size] is their
    number. *)
Definition map_entries (h : heap) (v : jsval) : option (list (jsval * jsval)) :=
  match v with
  | VRef l => match h !! l with Some (OMap es) => Some es | _ => None end
  | _ => None
  end.

(** The references held by an own-property table all point above [n]. *)
Definition owned_refs (n : nat) (props : list (string * jsval)) : Prop :=
  Forall (fun kv => exists l, kv.2 = VRef l /\ n < l) props.


(** A letter, [_] or [$]: the characters an identifier can start with. *)
Definition IdentifierStart (c : ascii) : bool :=
  StringToNumber.between 65 90 c || StringToNumber.between 97 122 c
  || (StringToNumber.code c =? 95)%nat || (StringToNumber.code c =? 36)%nat.

(** * Proofs *)

(** ** [isNaN(Number(key))] on sample keys *)

Example isNaN_Number_samples :
  map isNaN_Number
      ["ADMIN"; "1"; "42"; "-1"; ""; " 7 "; "0x1F"; "1e3"; ".5"; "Infinity";
       "1_000"; "3px"; "0x"; "."; "e5"; "NaN"; "cases"; "+-1"; "-0x10"]
  = [true; false; false; false; false; false; false; false; false; false;
     true; true; true; true; true; true; true; true; true].
Proof. reflexivity. Qed.

(** ** Heap and table lemmas *)

Section HeapLemmas.
Context {A : Type}.
Implicit Types (l r : list A) (x y z : A).

Lemma lookup_mid0 l x r : (l ++ x :: r) !! List.length l = Some x.
Proof. by rewrite list_lookup_middle. Qed.

Lemma lookup_mid1 l x y r : (l ++ x :: y :: r) !! S (List.length l) = Some y.
Proof.
  replace (l ++ x :: y :: r) with ((l ++ [x]) ++ y :: r) by by rewrite <- app_assoc.
  apply list_lookup_middle. rewrite length_app. simpl. lia.
Qed.

Lemma lookup_mid2 l x y z r :
  (l ++ x :: y :: z :: r) !! S (S (List.length l)) = Some z.
Proof.
  replace (l ++ x :: y :: z :: r) with ((l ++ [x; y]) ++ z :: r)
    by by rewrite <- app_assoc.
  apply list_lookup_middle. rewrite length_app. simpl. lia.
Qed.

Lemma insert_mid0 l x x' r :
  <[List.length l := x']> (l ++ x :: r) = l ++ x' :: r.
Proof.
  replace (List.length l) with (List.length l + 0) by lia.
  by rewrite insert_app_r.
Qed.

Lemma insert_mid1 l x y y' r :
  <[S (List.length l) := y']> (l ++ x :: y :: r) = l ++ x :: y' :: r.
Proof.
  replace (S (List.length l)) with (List.length l + 1) by lia.
  by rewrite insert_app_r.
Qed.

Lemma insert_mid2 l x y z z' r :
  <[S (S (List.length l)) := z']> (l ++ x :: y :: z :: r) = l ++ x :: y :: z' :: r.
Proof.
  replace (S (S (List.length l))) with (List.length l + 2) by lia.
  by rewrite insert_app_r.
Qed.
End HeapLemmas.

Section PropertyTables.
Implicit Types (props : list (string * jsval)) (k : string) (v : jsval).

Lemma prop_get_define props k v k' :
  prop_get (prop_define props k v) k' =
  if decide (k = k') then Some v else prop_get props k'.
Proof.
  induction props as [|[k0 v0] t IH]; simpl.
  - repeat case_decide; congruence.
  - destruct (decide (k0 = k)) as [->|Hne]; simpl.
    + repeat case_decide; congruence.
    + rewrite IH. repeat case_decide; congruence.
Qed.

Lemma accessors_skip bs props k :
  k ∉ bs.*1 -> prop_get (accessors bs props) k = prop_get props k.
Proof.
  revert props. induction bs as [|[k0 i0] bs IH]; intros props Hk; [done|].
  simpl in *. apply not_elem_of_cons in Hk as [Hne Hk].
  unfold accessors in *. simpl. rewrite IH by done.
  rewrite prop_get_define. case_decide; congruence.
Qed.

Lemma accessors_bound bs props k i :
  NoDup bs.*1 -> (k, i) ∈ bs -> prop_get (accessors bs props) k = Some (VRef i).
Proof.
  revert props. induction bs as [|[k0 i0] bs IH]; intros props Hnd Hin.
  - by apply elem_of_nil in Hin.
  - simpl in Hnd. apply NoDup_cons in Hnd as [Hfresh Hnd].
    apply elem_of_cons in Hin as [Heq|Hin].
    + injection Heq as -> ->. unfold accessors. simpl.
      fold (accessors bs (prop_define props k0 (VRef i0))).
      rewrite accessors_skip by done.
      rewrite prop_get_define. by case_decide.
    + unfold accessors. simpl.
      fold (accessors bs (prop_define props k0 (VRef i0))). by apply IH.
Qed.

Lemma accessors_unbound bs props k :
  prop_get (accessors bs props) k = None -> k ∉ bs.*1.
Proof.
  revert props. induction bs as [|[k0 i0] bs IH]; intros props Hget.
  - apply not_elem_of_nil.
  - simpl. unfold accessors in Hget. simpl in Hget.
    fold (accessors bs (prop_define props k0 (VRef i0))) in Hget.
    apply not_elem_of_cons. split; [|by eapply IH].
    intros ->. destruct (decide (k0 ∈ bs.*1)) as [Hin|Hout].
    + apply IH in Hget. done.
    + rewrite accessors_skip in Hget by done.
      rewrite prop_get_define in Hget. by case_decide.
Qed.
End PropertyTables.

Section Construction.
Variables (baseEnum : EnumLike) (CaseClass : class).

Lemma constructor_body_spec h0 props elems ents insts key :
  prop_get props "cases" = Some (VRef (S (List.length h0))) ->
  prop_get props "map" = Some (VRef (S (S (List.length h0)))) ->
  let n := List.length h0 + 3 + List.length insts in
  constructor_body baseEnum CaseClass (List.length h0) key
    (h0 ++ OBackedEnum props :: OArray elems :: OMap ents :: insts)
  = Returns tt
      (h0 ++ OBackedEnum (prop_define props key (VRef n))
          :: OArray (elems ++ [VRef n])
          :: OMap (entries_set ents (enum_get baseEnum key) (VRef n))
          :: insts ++ [OCase CaseClass key (enum_get baseEnum key)]).
Proof.
  intros Hcases Hmap n.
  unfold constructor_body, new_case, bind, alloc, ret, get_field.
  assert (List.length (h0 ++ OBackedEnum props :: OArray elems :: OMap ents :: insts) = n)
    as -> by (rewrite length_app; simpl; lia).
  rewrite <- app_assoc. simpl.
  rewrite lookup_mid0, Hcases. simpl.
  unfold Array_push. rewrite lookup_mid1, insert_mid1.
  rewrite lookup_mid0, Hmap. simpl.
  unfold Map_set. rewrite lookup_mid2, insert_mid2.
  unfold defineProperty. by rewrite lookup_mid0, insert_mid0.
Qed.

Lemma for_of_constructor_spec keys : forall h0 props elems ents insts,
  prop_get props "cases" = Some (VRef (S (List.length h0))) ->
  prop_get props "map" = Some (VRef (S (S (List.length h0)))) ->
  Forall (fun k => k <> "cases" /\ k <> "map") keys ->
  let bs := bindings keys (List.length h0 + 3 + List.length insts) in
  for_of keys (constructor_body baseEnum CaseClass (List.length h0))
    (h0 ++ OBackedEnum props :: OArray elems :: OMap ents :: insts)
  = Returns tt
      (h0 ++ OBackedEnum (accessors bs props)
          :: OArray (elems ++ map (fun b => VRef b.2) bs)
          :: OMap (reverse_index baseEnum bs ents)
          :: insts ++ instances baseEnum CaseClass keys).
Proof.
  induction keys as [|key keys IH]; intros h0 props elems ents insts Hc Hm Hfree.
  - simpl. unfold ret. by rewrite !app_nil_r.
  - apply Forall_cons in Hfree as [[Hk1 Hk2] Hfree].
    cbn [for_of]. unfold bind at 1.
    rewrite constructor_body_spec by done.
    rewrite IH; [| rewrite prop_get_define; by case_decide ..| done].
    rewrite length_app. simpl.
    replace (List.length h0 + 3 + (List.length insts + 1))
      with (S (List.length h0 + 3 + List.length insts)) by lia.
    unfold bindings, accessors, reverse_index, instances. simpl.
    by rewrite <- !app_assoc.
Qed.

Lemma avoids_elem names k :
  avoids names baseEnum = true -> k ∈ names -> k ∉ enum_keys baseEnum.
Proof.
  unfold avoids. rewrite forallb_forall. intros H Hk Hin.
  apply list_elem_of_In, H, negb_true_iff, bool_decide_eq_false in Hin. done.
Qed.

Lemma avoids_weaken names names' :
  forallb (fun k => bool_decide (k ∈ names)) names' = true ->
  avoids names baseEnum = true -> avoids names' baseEnum = true.
Proof.
  intros Hsub Hfree. unfold avoids. apply forallb_forall. intros k Hin.
  apply negb_true_iff, bool_decide_eq_false. intros Hk.
  rewrite forallb_forall in Hsub.
  apply list_elem_of_In, Hsub, bool_decide_eq_true in Hk.
  apply list_elem_of_In in Hin. by apply (avoids_elem names k).
Qed.

Lemma avoids_fields :
  avoids ["cases"; "map"] baseEnum = true ->
  Forall (fun k => k <> "cases" /\ k <> "map") (enum_keys baseEnum).
Proof.
  intros H. apply Forall_forall. intros k Hin.
  split; intros ->; apply (avoids_elem _ _ H) in Hin; [done| |done|];
    repeat constructor.
Qed.

(** Construction succeeds and leaves exactly [built_heap]. *)
Lemma createBackedEnum_spec h0 :
  avoids ["cases"; "map"] baseEnum = true ->
  createBackedEnum baseEnum CaseClass h0
  = Returns (List.length h0) (built_heap baseEnum CaseClass h0).
Proof.
  intros Hfree. apply avoids_fields in Hfree.
  unfold createBackedEnum, BackedEnum_new, bind, alloc, ret.
  unfold defineProperty.
  rewrite !length_app. simpl.
  rewrite <- !app_assoc. simpl.
  rewrite lookup_mid0, insert_mid0. simpl.
  rewrite length_app, <- app_assoc. simpl.
  rewrite lookup_mid0, insert_mid0. simpl.
  replace (List.length h0 + 2) with (S (S (List.length h0))) by lia.
  replace (List.length h0 + 1) with (S (List.length h0)) by lia.
  rewrite (for_of_constructor_spec (enum_keys baseEnum) h0 _ [] [] [])
    by done.
  unfold built_heap. simpl.
  replace (List.length h0 + 3 + 0) with (List.length h0 + 3) by lia.
  replace (List.length h0 + 2) with (S (S (List.length h0))) by lia.
  by replace (List.length h0 + 1) with (S (List.length h0)) by lia.
Qed.
End Construction.

Section ReverseIndex.
Variable baseEnum : EnumLike.
Implicit Types (es : list (jsval * jsval)) (bs : list (string * loc)).

Lemma entries_get_set es k v k' :
  entries_get (entries_set es k v) k' =
  if decide (k = k') then Some v else entries_get es k'.
Proof.
  unfold same_value_zero.
  induction es as [|[k0 v0] t IH]; simpl; unfold same_value_zero.
  - repeat case_bool_decide; case_decide; congruence.
  - destruct (bool_decide_reflect (k0 = k)) as [->|Hne]; simpl;
      unfold same_value_zero.
    + case_bool_decide; case_decide; congruence.
    + rewrite IH. case_bool_decide; case_decide; congruence.
Qed.

Lemma reverse_index_app bs1 bs2 es :
  reverse_index baseEnum (bs1 ++ bs2) es
  = reverse_index baseEnum bs2 (reverse_index baseEnum bs1 es).
Proof. apply fold_left_app. Qed.

Lemma reverse_index_skip bs es v :
  Forall (fun b => enum_get baseEnum b.1 <> v) bs ->
  entries_get (reverse_index baseEnum bs es) v = entries_get es v.
Proof.
  revert es. induction bs as [|b bs IH]; intros es Hall; [done|].
  apply Forall_cons in Hall as [Hb Hall]. simpl.
  rewrite IH by done. rewrite entries_get_set. by case_decide.
Qed.

(** Last write wins: the entry of a value belongs to the last binding
    that carries it. *)
Lemma reverse_index_last bs1 k i bs2 es :
  Forall (fun b => enum_get baseEnum b.1 <> enum_get baseEnum k) bs2 ->
  entries_get (reverse_index baseEnum (bs1 ++ (k, i) :: bs2) es)
              (enum_get baseEnum k)
  = Some (VRef i).
Proof.
  intros Hlater. rewrite reverse_index_app. simpl.
  rewrite reverse_index_skip by done.
  rewrite entries_get_set. by case_decide.
Qed.

Lemma reverse_index_hit bs es v r :
  entries_get (reverse_index baseEnum bs es) v = Some r ->
  entries_get es v = Some r \/
  exists k i, (k, i) ∈ bs /\ r = VRef i /\ enum_get baseEnum k = v.
Proof.
  revert es. induction bs as [|[k i] bs IH]; intros es Hget; [by left|].
  simpl in Hget. apply IH in Hget as [Hget|(k' & i' & Hin & -> & Hv)].
  - rewrite entries_get_set in Hget. case_decide as Hk.
    + injection Hget as <-. right. exists k, i. split; [left|done].
    + by left.
  - right. exists k', i'. split; [by right|done].
Qed.

Lemma reverse_index_miss bs v :
  entries_get (reverse_index baseEnum bs []) v = None <->
  Forall (fun b => enum_get baseEnum b.1 <> v) bs.
Proof.
  split.
  - induction bs as [|b bs IH] using rev_ind; intros Hget; [constructor|].
    rewrite reverse_index_app in Hget. simpl in Hget.
    rewrite entries_get_set in Hget. case_decide as Hb; [done|].
    apply Forall_app. split; [by apply IH|]. by constructor.
  - intros Hall. by rewrite reverse_index_skip.
Qed.
End ReverseIndex.

Section Bindings.
Implicit Types (keys : list string) (first i : loc) (k : string).

Lemma bindings_keys keys first : (bindings keys first).*1 = keys.
Proof. unfold bindings. apply fst_zip. by rewrite length_seq. Qed.

Lemma bindings_locs keys first :
  (bindings keys first).*2 = seq first (List.length keys).
Proof. unfold bindings. apply snd_zip. by rewrite length_seq. Qed.

Lemma bindings_length keys first :
  List.length (bindings keys first) = List.length keys.
Proof. by rewrite <- (length_fmap fst), bindings_keys. Qed.

Lemma bindings_lookup keys first j k :
  keys !! j = Some k <-> bindings keys first !! j = Some (k, first + j).
Proof.
  unfold bindings. rewrite lookup_zip_with_Some. split.
  - intros Hk. exists k, (first + j). split; [done|]. split; [done|].
    apply lookup_seq. split; [done|]. by eapply lookup_lt_Some.
  - intros (k' & i' & Heq & Hk & _). by injection Heq as -> _.
Qed.

Lemma bindings_elem keys first k i :
  (k, i) ∈ bindings keys first ->
  exists j, keys !! j = Some k /\ i = first + j.
Proof.
  intros Hin. apply list_elem_of_lookup in Hin as [j Hj]. exists j.
  unfold bindings in Hj. apply lookup_zip_with_Some in Hj
    as (k' & i' & Heq & Hk & Hi).
  injection Heq as -> ->. apply lookup_seq in Hi as [-> _]. done.
Qed.
End Bindings.

(** ** Reading a built collection *)

Section Built.
Variables (baseEnum : EnumLike) (CaseClass : class) (h0 : heap).

Let this : loc := List.length h0.
Let keys := enum_keys baseEnum.
Let bs := bindings keys (this + 3).
Let h := built_heap baseEnum CaseClass h0.

Lemma built_this :
  h !! this = Some (OBackedEnum
    (accessors bs [("cases", VRef (this + 1)); ("map", VRef (this + 2))])).
Proof. apply lookup_mid0. Qed.

Lemma built_array :
  h !! (this + 1) = Some (OArray (map (fun b => VRef b.2) bs)).
Proof.
  subst h this. unfold built_heap. rewrite Nat.add_1_r. apply lookup_mid1.
Qed.

Lemma built_map :
  h !! (this + 2) = Some (OMap (reverse_index baseEnum bs [])).
Proof.
  subst h this. unfold built_heap.
  replace (List.length h0 + 2) with (S (S (List.length h0))) by lia.
  apply lookup_mid2.
Qed.

Lemma built_instance j k :
  keys !! j = Some k ->
  h !! (this + 3 + j) = Some (OCase CaseClass k (enum_get baseEnum k)).
Proof.
  intros Hk. subst h this. unfold built_heap.
  rewrite lookup_app_r by lia.
  replace (List.length h0 + 3 + j - List.length h0) with (S (S (S j))) by lia.
  simpl. unfold instances. rewrite list_lookup_fmap.
  fold keys. by rewrite Hk.
Qed.

Hypothesis Hfree : avoids ["cases"; "map"] baseEnum = true.

Lemma keys_not_fields k : k ∈ ["cases"; "map"] -> k ∉ bs.*1.
Proof.
  intros Hmem. subst bs. rewrite bindings_keys.
  by apply (avoids_elem baseEnum ["cases"; "map"]).
Qed.

Lemma own_cases : own_property h this "cases" = Some (VRef (this + 1)).
Proof.
  unfold own_property. rewrite built_this.
  rewrite accessors_skip; [by simpl|].
  apply keys_not_fields. repeat constructor.
Qed.

Lemma own_map : own_property h this "map" = Some (VRef (this + 2)).
Proof.
  unfold own_property. rewrite built_this.
  rewrite accessors_skip; [by simpl|].
  apply keys_not_fields. repeat constructor.
Qed.

Lemma read_cases_elems :
  array_elems h (read h this "cases") = Some (map (fun b => VRef b.2) bs).
Proof.
  unfold read. rewrite own_cases.
  unfold default, from_option, id, array_elems. cbv iota.
  by rewrite built_array.
Qed.

(** An accessor exists for the case-names and for nothing else but the
    two fields. *)
Lemma own_accessor_None k :
  k ∉ keys -> k <> "cases" -> k <> "map" -> own_property h this k = None.
Proof.
  intros Hk Hc Hm. unfold own_property. rewrite built_this.
  rewrite accessors_skip by (subst bs; by rewrite bindings_keys).
  simpl. repeat case_decide; congruence.
Qed.

(** A method of the prototype is reached when no case carries its name. *)
Lemma own_method_free name :
  avoids [name] baseEnum = true -> name <> "cases" -> name <> "map" ->
  own_property h this name = None.
Proof.
  intros Hname Hc Hm. apply own_accessor_None; [|done..].
  apply (avoids_elem baseEnum [name]); [done|]. by left.
Qed.

Hypothesis Hnodup : NoDup (Object_keys baseEnum).

Lemma keys_NoDup : NoDup keys.
Proof.
  subst keys. unfold enum_keys. clear -Hnodup.
  induction (Object_keys baseEnum) as [|k t IH]; simpl; [constructor|].
  apply NoDup_cons in Hnodup as [Hk Ht].
  destruct (isNaN_Number k); [|by apply IH].
  apply NoDup_cons. split; [|by apply IH].
  intros Hin. apply Hk. apply list_elem_of_In in Hin.
  apply filter_In in Hin as [Hin _]. by apply list_elem_of_In.
Qed.

Lemma own_accessor j k :
  keys !! j = Some k -> own_property h this k = Some (VRef (this + 3 + j)).
Proof.
  intros Hk. unfold own_property. rewrite built_this.
  apply accessors_bound.
  - subst bs. rewrite bindings_keys. apply keys_NoDup.
  - apply list_elem_of_lookup. exists j. subst bs. by apply bindings_lookup.
Qed.

Lemma cases_index j k :
  keys !! j = Some k ->
  index h (read h this "cases") j = VRef (this + 3 + j).
Proof.
  intros Hk. unfold read. rewrite own_cases.
  unfold default, from_option, id, index. cbv iota.
  rewrite built_array, list_lookup_fmap.
  apply (bindings_lookup _ (this + 3)) in Hk. fold bs in Hk. by rewrite Hk.
Qed.
End Built.

Section BuiltIndex.
Variables (baseEnum : EnumLike) (CaseClass : class) (h0 : heap).

Lemma reverse_index_at keys first j k :
  keys !! j = Some k ->
  (forall j' k', j < j' -> keys !! j' = Some k' ->
                 enum_get baseEnum k' <> enum_get baseEnum k) ->
  entries_get (reverse_index baseEnum (bindings keys first) [])
              (enum_get baseEnum k)
  = Some (VRef (first + j)).
Proof.
  intros Hk Hlater.
  pose proof (proj1 (bindings_lookup keys first j k) Hk) as Hb.
  rewrite <- (take_drop_middle _ _ _ Hb).
  apply reverse_index_last.
  apply Forall_forall. intros [k' i'] Hin. simpl.
  apply list_elem_of_lookup in Hin as [d Hd].
  rewrite lookup_drop in Hd.
  pose proof (lookup_lt_Some _ _ _ Hd) as Hlt.
  rewrite bindings_length in Hlt.
  destruct (lookup_lt_is_Some_2 keys (S j + d) Hlt) as [k'' Hk''].
  pose proof (proj1 (bindings_lookup keys first _ _) Hk'') as Hb''.
  rewrite Hb'' in Hd. injection Hd as -> _.
  apply (Hlater (S j + d)); [lia|done].
Qed.

Lemma entries_set_elem (es : list (jsval * jsval)) k v a b :
  (a, b) ∈ entries_set es k v -> (a, b) ∈ es \/ (a = k /\ b = v).
Proof.
  induction es as [|[k0 v0] t IH]; simpl.
  - intros Hin. apply list_elem_of_singleton in Hin. injection Hin as -> ->.
    by right.
  - unfold same_value_zero. case_bool_decide as Hk.
    + intros Hin. apply elem_of_cons in Hin as [Heq|Hin].
      * injection Heq as -> ->. by right.
      * left. by right.
    + intros Hin. apply elem_of_cons in Hin as [Heq|Hin].
      * left. rewrite Heq. by left.
      * apply IH in Hin as [Hin|Hin]; [left; by right|by right].
Qed.

Lemma reverse_index_elem bs es a b :
  (a, b) ∈ reverse_index baseEnum bs es ->
  (a, b) ∈ es \/
  exists k i, (k, i) ∈ bs /\ a = enum_get baseEnum k /\ b = VRef i.
Proof.
  revert es. induction bs as [|[k i] bs IH]; intros es Hin; [by left|].
  simpl in Hin. apply IH in Hin as [Hin|(k' & i' & Hin & Ha & Hb)].
  - apply entries_set_elem in Hin as [Hin|[-> ->]]; [by left|].
    right. exists k, i. split; [by left|done].
  - right. exists k', i'. split; [by right|done].
Qed.

Let this : loc := List.length h0.
Let keys := enum_keys baseEnum.
Let h := built_heap baseEnum CaseClass h0.

Lemma cases_names :
  map (member_name h) (map (fun b => VRef b.2) (bindings keys (this + 3)))
  = map VString keys.
Proof.
  apply list_eq. intros j. rewrite !list_lookup_fmap.
  destruct (keys !! j) as [k|] eqn:Hk; simpl.
  - rewrite (proj1 (bindings_lookup keys (this + 3) j k) Hk). simpl.
    subst h this keys. by rewrite (built_instance _ _ _ _ _ Hk).
  - destruct (bindings keys (this + 3) !! j) as [[k i]|] eqn:Hb; [|done].
    pose proof (lookup_lt_Some _ _ _ Hb) as Hlt.
    rewrite bindings_length in Hlt.
    apply lookup_ge_None in Hk. lia.
Qed.

Lemma cases_NoDup :
  NoDup (map (fun b : string * loc => VRef b.2) (bindings keys (this + 3))).
Proof.
  replace (map (fun b : string * loc => VRef b.2) (bindings keys (this + 3)))
    with (VRef <$> (bindings keys (this + 3)).*2)
    by (by rewrite <- list_fmap_compose).
  rewrite bindings_locs. apply NoDup_fmap_2; [|apply NoDup_seq].
  intros x y Heq. by injection Heq.
Qed.

Hypothesis Hfree : avoids ["cases"; "map"] baseEnum = true.

Lemma read_map_get v :
  Map_get (read h this "map") v h
  = Returns (default VUndefined
      (entries_get (reverse_index baseEnum (bindings keys (this + 3)) []) v)) h.
Proof.
  unfold read. subst h this. rewrite own_map by done.
  unfold default at 1, from_option, id, Map_get. cbv iota.
  by rewrite built_map.
Qed.
End BuiltIndex.

Section FromLemmas.
Variables (CaseClass : class) (this : loc).

Lemma get_field_read k h : get_field this k h = Returns (read h this k) h.
Proof.
  unfold get_field, read, own_property.
  destruct (h !! this) as [[]|]; done.
Qed.

(** A string or a number goes straight to the reverse index. *)
Lemma from_primitive depth p h :
  BackedEnum_from (S depth) CaseClass this (prim_value p) h
  = Map_get (read h this "map") (prim_value p) h.
Proof.
  destruct p; simpl; unfold bind; by rewrite get_field_read.
Qed.

(** A case instance is looked up again by its value. *)
Lemma from_instance depth c cls name v h :
  h !! c = Some (OCase cls name v) ->
  class_id CaseClass ∈ class_chain cls ->
  BackedEnum_from (S depth) CaseClass this (VRef c) h
  = BackedEnum_from depth CaseClass this v h.
Proof.
  intros Hc Hcls. cbn [BackedEnum_from]. unfold instanceof.
  rewrite Hc. rewrite bool_decide_eq_true_2 by done.
  unfold bind, member_value. by rewrite Hc.
Qed.

(** Anything else is answered with [undefined] before the receiver is
    touched. *)
Lemma from_other depth x h :
  instanceof h x CaseClass = false ->
  typeof h x <> TString -> typeof h x <> TNumber ->
  BackedEnum_from (S depth) CaseClass this x h = Returns VUndefined h.
Proof.
  intros Hinst Hs Hn. cbn [BackedEnum_from]. rewrite Hinst.
  by rewrite !bool_decide_eq_true_2.
Qed.
End FromLemmas.

(** ** The claims *)

(** *** Order and number of cases *)

(** C5, as amended: for every definition none of whose case-names is [cases]
    or [map] (the collection's own fields), construction returns a collection
    whose [cases] array has exactly one distinct instance per filtered
    case-name, and [cases.map(c => c.name)] is the filtered key list in the
    definition's own order. *)
Theorem cases_order_preserved baseEnum CaseClass h0 :
  avoids ["cases"; "map"] baseEnum = true ->
  cases_in_definition_order baseEnum CaseClass h0.
Proof.
  intros Hfree. unfold cases_in_definition_order.
  eexists _, _, _. split; [by apply createBackedEnum_spec|].
  split; [by apply read_cases_elems|].
  split; [by rewrite length_map, bindings_length|].
  split; [apply cases_NoDup|apply cases_names].
Qed.

Lemma cases_order_preserved_witness :
  cases_in_definition_order
    [("B", PNumber (Fin 2)); ("C", PNumber (Fin 3)); ("A", PNumber (Fin 1))]
    EnumCase [].
Proof. apply cases_order_preserved. reflexivity. Defined.

(** C5 fails as stated: with a case named [cases] the accessor replaces the
    array, and [collection.cases] is the case instance. *)
Lemma cases_order_counterexample :
  ~ cases_in_definition_order [("cases", PNumber (Fin 1))] EnumCase [].
Proof.
  intros (this & h & es & Hnew & Hes & _).
  vm_compute in Hnew. injection Hnew as <- <-.
  vm_compute in Hes. discriminate.
Qed.

(** Key order, not value order or alphabetical order. *)
Example cases_order_sample :
  exists h es,
    createBackedEnum
      [("B", PNumber (Fin 2)); ("C", PNumber (Fin 3)); ("A", PNumber (Fin 1))]
      EnumCase [] = Returns 0 h /\
    array_elems h (read h 0 "cases") = Some es /\
    map (member_name h) es = [VString "B"; VString "C"; VString "A"].
Proof. eexists _, _. repeat split. Qed.

(** *** Filtering of the keys that parse as numbers *)

Lemma enum_keys_spec baseEnum k :
  k ∈ enum_keys baseEnum <-> k ∈ Object_keys baseEnum /\ isNaN_Number k = true.
Proof. unfold enum_keys. rewrite !list_elem_of_In. apply filter_In. Qed.

Lemma numeric_key_not_member k :
  isNaN_Number k = false -> k <> "cases" /\ k <> "map".
Proof. intros Hk. split; intros ->; discriminate. Qed.

(** C8, as amended: for every definition (a mapping: each key once) none of
    whose filtered case-names is [cases] or [map] (the collection's own
    fields), construction builds a case for exactly the keys whose coercion
    to a number is [NaN]; a key that parses as a number contributes no case,
    no accessor and no reverse-index entry. *)
Theorem numeric_keys_filtered baseEnum CaseClass h0 :
  NoDup (Object_keys baseEnum) ->
  avoids ["cases"; "map"] baseEnum = true ->
  numeric_keys_excluded baseEnum CaseClass h0.
Proof.
  intros Hnd Hfree. unfold numeric_keys_excluded.
  eexists _, _, _, _, _. split; [by apply createBackedEnum_spec|].
  split; [by apply read_cases_elems|].
  split; [unfold read; by rewrite own_map|].
  split; [apply built_map|].
  split; [by rewrite length_map, bindings_length|].
  intros k Hk. destruct (isNaN_Number k) eqn:Hnan.
  - assert (k ∈ enum_keys baseEnum) as Hin by by apply enum_keys_spec.
    apply list_elem_of_lookup in Hin as [j Hj].
    exists (List.length h0 + 3 + j).
    split; [by apply own_accessor|].
    split; [|by apply built_instance].
    apply list_elem_of_lookup. exists j. rewrite list_lookup_fmap.
    by rewrite (proj1 (bindings_lookup _ (List.length h0 + 3) j k) Hj).
  - assert (k ∉ enum_keys baseEnum) as Hout.
    { rewrite enum_keys_spec. intros [_ ?]. congruence. }
    destruct (numeric_key_not_member k Hnan) as [Hc Hm].
    split; [by apply own_accessor_None|].
    split.
    + rewrite cases_names. intros Hin. apply Hout.
      apply list_elem_of_fmap in Hin as (k' & Heq & Hin). by injection Heq as ->.
    + intros v c Hin Hname.
      apply reverse_index_elem in Hin as [Hin|(k' & i & Hin & -> & ->)].
      { by apply elem_of_nil in Hin. }
      apply bindings_elem in Hin as (j & Hj & ->).
      unfold member_name in Hname.
      rewrite (built_instance _ _ _ _ _ Hj) in Hname.
      injection Hname as ->. apply Hout.
      apply list_elem_of_lookup. by exists j.
Qed.

Lemma RoleEnum_NoDup : NoDup (Object_keys RoleEnum).
Proof. apply (bool_decide_unpack (NoDup (Object_keys RoleEnum))). by vm_compute. Defined.

Lemma numeric_keys_filtered_witness :
  numeric_keys_excluded RoleEnum EnumCase [].
Proof.
  apply numeric_keys_filtered; [exact RoleEnum_NoDup | reflexivity].
Defined.

(** C8 fails as stated: [B] does not parse as a number, yet no case is built
    for it, because construction throws once the case named [cases] has
    replaced the array. *)
Lemma numeric_keys_counterexample :
  ~ numeric_keys_excluded
      [("cases", PNumber (Fin 1)); ("B", PNumber (Fin 2))] EnumCase [].
Proof.
  intros (this & h & es & m & ents & Hnew & _).
  vm_compute in Hnew. discriminate.
Qed.

(** The reverse entries of a numeric enumeration are dropped. *)
Example RoleEnum_keys : enum_keys RoleEnum = ["ADMIN"; "USER"; "GUEST"].
Proof. reflexivity. Qed.

(** *** Shared backing values *)

(** C7, as amended: for every definition (each key once) none of whose
    case-names is [cases] or [map] (the collection's own fields),
    construction does not fail when case-names share a backing value: the
    reverse index maps the value to the case processed last, and every case
    stays reachable through its own accessor and keeps its place in
    [cases]. *)
Theorem shared_values_last_write_wins baseEnum CaseClass h0 :
  NoDup (Object_keys baseEnum) ->
  avoids ["cases"; "map"] baseEnum = true ->
  shared_value_last_wins baseEnum CaseClass h0.
Proof.
  intros Hnd Hfree. unfold shared_value_last_wins.
  eexists _, _. split; [by apply createBackedEnum_spec|].
  intros j1 j2 k1 k2 Hk1 Hk2 Hlt Hshare Hlast.
  exists (List.length h0 + 3 + j1), (List.length h0 + 3 + j2).
  split; [lia|].
  split.
  { rewrite read_map_get by done.
    by rewrite (reverse_index_at baseEnum _ _ j2 k2). }
  unfold read. rewrite !(own_accessor _ _ _ Hnd _ _ Hk1).
  rewrite !(own_accessor _ _ _ Hnd _ _ Hk2).
  split; [done|]. split; [done|].
  fold (read (built_heap baseEnum CaseClass h0) (List.length h0) "cases").
  rewrite (cases_index _ _ _ Hfree _ _ Hk1), (cases_index _ _ _ Hfree _ _ Hk2).
  split; [done|]. split; [done|].
  split; by apply built_instance.
Qed.

Lemma TwinEnum_NoDup : NoDup (Object_keys TwinEnum).
Proof. apply (bool_decide_unpack (NoDup (Object_keys TwinEnum))). by vm_compute. Defined.

Lemma shared_values_last_write_wins_witness :
  shared_value_last_wins TwinEnum EnumCase [].
Proof.
  apply shared_values_last_write_wins; [exact TwinEnum_NoDup | reflexivity].
Defined.

(** In [{A: 1, B: 1}] the entry for 1 is [B]'s instance, and both are in
    [cases]. *)
Example TwinEnum_sample :
  exists h,
    createBackedEnum TwinEnum EnumCase [] = Returns 0 h /\
    Map_get (read h 0 "map") (VNumber (Fin 1)) h = Returns (VRef 4) h /\
    read h 0 "A" = VRef 3 /\ read h 0 "B" = VRef 4 /\
    array_elems h (read h 0 "cases") = Some [VRef 3; VRef 4].
Proof. eexists. repeat split. Qed.

(** C7 fails as stated: two names share the value 1, and construction throws
    on the second one because the case named [cases] has replaced the
    array. *)
Lemma shared_values_counterexample :
  ~ shared_value_last_wins
      [("cases", PNumber (Fin 1)); ("B", PNumber (Fin 1))] EnumCase [].
Proof.
  intros (this & h & Hnew & _). vm_compute in Hnew. discriminate.
Qed.

(** *** Lookup on a built collection *)

Section BuiltLookup.
Variables (baseEnum : EnumLike) (CaseClass : class) (h0 : heap).
Hypothesis Hfree : avoids ["cases"; "map"] baseEnum = true.
Hypothesis Hfrom : avoids ["from"] baseEnum = true.

Let this : loc := List.length h0.
Let h := built_heap baseEnum CaseClass h0.

(** [collection.from] is the method of the prototype. *)
Lemma call_from_method depth x :
  call_from depth CaseClass this x h = BackedEnum_from depth CaseClass this x h.
Proof. unfold call_from. subst h this. by rewrite own_method_free. Qed.

Lemma call_from_primitive depth p :
  call_from (S depth) CaseClass this (prim_value p) h
  = Returns (default VUndefined
      (entries_get
         (reverse_index baseEnum (bindings (enum_keys baseEnum) (this + 3)) [])
         (prim_value p))) h.
Proof.
  rewrite call_from_method, from_primitive. subst h this.
  by rewrite read_map_get.
Qed.

Lemma enum_get_prim k :
  k ∈ Object_keys baseEnum -> exists p, enum_get baseEnum k = prim_value p.
Proof.
  clear. induction baseEnum as [|[k0 p0] t IH]; simpl; intros Hin.
  - by apply elem_of_nil in Hin.
  - case_decide; [by exists p0|].
    apply elem_of_cons in Hin as [?|Hin]; [congruence|by apply IH].
Qed.

(** Looking up the value of the case at position [j] gives that case,
    when no later case carries the value. *)
Lemma call_from_value depth j k :
  enum_keys baseEnum !! j = Some k ->
  last_with_value baseEnum j k ->
  call_from (S depth) CaseClass this (enum_get baseEnum k) h
  = Returns (VRef (this + 3 + j)) h.
Proof.
  intros Hk Hlast.
  assert (k ∈ Object_keys baseEnum) as Hin.
  { apply (enum_keys_spec baseEnum). apply list_elem_of_lookup. by exists j. }
  destruct (enum_get_prim k Hin) as [p Hp].
  rewrite Hp, call_from_primitive, <- Hp.
  by rewrite (reverse_index_at baseEnum _ _ j k).
Qed.

Lemma call_from_case depth j k :
  enum_keys baseEnum !! j = Some k ->
  last_with_value baseEnum j k ->
  call_from (S (S depth)) CaseClass this (VRef (this + 3 + j)) h
  = Returns (VRef (this + 3 + j)) h.
Proof.
  intros Hk Hlast. rewrite call_from_method.
  rewrite (from_instance _ _ _ _ CaseClass k (enum_get baseEnum k)).
  - rewrite <- call_from_method. by apply call_from_value.
  - subst h this. by apply built_instance.
  - unfold class_chain. by left.
Qed.
End BuiltLookup.

(** C1, as amended: for every definition (each key once) none of whose
    case-names is [cases], [map] or [from], and every case-name [k]:
    [collection[k]] and [collection.cases[i]], at the position [i] of [k] in
    the filtered keys, are the same case instance, and
    [collection.from(collection[k].value)] is that instance too when no
    later case-name carries the same backing value. *)
Theorem identity_of_access_paths baseEnum CaseClass h0 :
  NoDup (Object_keys baseEnum) ->
  avoids ["cases"; "map"; "from"] baseEnum = true ->
  access_paths_agree_when (last_with_value baseEnum) baseEnum CaseClass h0.
Proof.
  intros Hnd Hall. unfold access_paths_agree_when.
  pose proof (avoids_weaken baseEnum ["cases"; "map"; "from"] ["cases"; "map"] eq_refl Hall) as Hfree.
  pose proof (avoids_weaken baseEnum ["cases"; "map"; "from"] ["from"] eq_refl Hall) as Hfrom.
  eexists _, _. split; [by apply createBackedEnum_spec|].
  intros depth j k Hk.
  exists (List.length h0 + 3 + j), (enum_get baseEnum k).
  pose proof (built_instance baseEnum CaseClass h0 j k Hk) as Hinst.
  split; [done|].
  assert (read (built_heap baseEnum CaseClass h0) (List.length h0) k
          = VRef (List.length h0 + 3 + j)) as Hread.
  { unfold read. by rewrite (own_accessor _ _ _ Hnd _ _ Hk). }
  split; [done|].
  split; [by apply (cases_index _ _ _ Hfree j k)|].
  split; [rewrite Hread; unfold member_value; by rewrite Hinst|].
  intros Hlast. by apply call_from_value.
Qed.

Lemma identity_of_access_paths_witness :
  access_paths_agree_when (last_with_value RoleEnum) RoleEnum EnumCase [].
Proof.
  apply identity_of_access_paths; [exact RoleEnum_NoDup | reflexivity].
Defined.

(** C1 fails as stated: in [{A: 1, B: 1}], [from(collection.A.value)] is
    [collection.B]. *)
Lemma identity_counterexample : ~ access_paths_agree TwinEnum EnumCase [].
Proof.
  intros (this & h & Hnew & Hall).
  vm_compute in Hnew. injection Hnew as <- <-.
  destruct (Hall 0 0 "A" eq_refl) as (c & v & _ & Hread & _ & Hv & Hfrom).
  vm_compute in Hread. injection Hread as <-.
  vm_compute in Hv. injection Hv as <-.
  specialize (Hfrom I). vm_compute in Hfrom. discriminate.
Qed.

(** *** Idempotent lookup *)

(** C2, as amended: for every definition none of whose case-names is
    [cases], [map] or [from], and every case instance [c] of
    [collection.cases] whose backing value no later case shares,
    [collection.from(c)] is [c]: [from] sees an instance of the case class
    and calls itself on [c.value]. *)
Theorem from_is_idempotent baseEnum CaseClass h0 :
  avoids ["cases"; "map"; "from"] baseEnum = true ->
  lookup_idempotent baseEnum CaseClass h0.
Proof.
  intros Hall. unfold lookup_idempotent.
  pose proof (avoids_weaken baseEnum ["cases"; "map"; "from"] ["cases"; "map"] eq_refl Hall) as Hfree.
  pose proof (avoids_weaken baseEnum ["cases"; "map"; "from"] ["from"] eq_refl Hall) as Hfrom.
  eexists _, _, _. split; [by apply createBackedEnum_spec|].
  split; [by apply read_cases_elems|].
  split; [by rewrite length_map, bindings_length|].
  intros depth j k Hk Hlast. exists (VRef (List.length h0 + 3 + j)).
  split.
  { rewrite list_lookup_fmap.
    by rewrite (proj1 (bindings_lookup _ (List.length h0 + 3) j k) Hk). }
  split.
  { unfold instanceof. rewrite (built_instance _ _ _ _ _ Hk).
    apply bool_decide_eq_true_2. by left. }
  by apply (call_from_case baseEnum CaseClass h0 Hfree Hfrom depth j k).
Qed.

Lemma from_is_idempotent_witness : lookup_idempotent RoleEnum EnumCase [].
Proof. apply from_is_idempotent. reflexivity. Defined.

(** C2 fails as stated: with a case named [from], [collection.from] is that
    case instance and calling it throws. *)
Lemma idempotent_counterexample :
  ~ lookup_idempotent [("from", PNumber (Fin 1))] EnumCase [].
Proof.
  intros (this & h & es & Hnew & Hes & _ & Hall).
  vm_compute in Hnew. injection Hnew as <- <-.
  vm_compute in Hes. injection Hes as <-.
  destruct (Hall 0 0 "from" eq_refl) as (c & Hc & _ & Hfrom).
  { intros j' k' Hlt Hk'. destruct j' as [|j']; [lia|]. discriminate. }
  vm_compute in Hc. injection Hc as <-.
  vm_compute in Hfrom. discriminate.
Qed.

(** *** Exact-match lookup *)

(** C4, as amended: for every definition none of whose case-names is
    [cases], [map] or [from], and every string or number candidate,
    [from] returns a case instance whose backing value is exactly the
    candidate, and [undefined] if no case carries it; a string never matches
    a number and letter case is not folded. *)
Theorem from_matches_exactly baseEnum CaseClass h0 :
  avoids ["cases"; "map"; "from"] baseEnum = true ->
  exact_match_lookup baseEnum CaseClass h0.
Proof.
  intros Hall. unfold exact_match_lookup.
  pose proof (avoids_weaken baseEnum ["cases"; "map"; "from"] ["cases"; "map"] eq_refl Hall) as Hfree.
  pose proof (avoids_weaken baseEnum ["cases"; "map"; "from"] ["from"] eq_refl Hall) as Hfrom.
  eexists _, _. split; [by apply createBackedEnum_spec|].
  intros depth p. rewrite call_from_primitive by done.
  destruct (entries_get _ _) as [r|] eqn:Hget.
  - left. apply reverse_index_hit in Hget as [Hget|(k & i & Hin & -> & Hv)];
      [done|].
    apply bindings_elem in Hin as (j & Hj & ->).
    exists (List.length h0 + 3 + j), k. split; [done|].
    split; [apply list_elem_of_lookup; by exists j|].
    rewrite <- Hv. by apply built_instance.
  - right. split; [done|]. intros k Hin.
    apply reverse_index_miss in Hget. rewrite Forall_forall in Hget.
    apply list_elem_of_lookup in Hin as [j Hj].
    apply (Hget (k, List.length h0 + 3 + j)).
    apply list_elem_of_lookup. exists j. by apply bindings_lookup.
Qed.

Lemma from_matches_exactly_witness : exact_match_lookup StatusEnum EnumCase [].
Proof. apply from_matches_exactly. reflexivity. Defined.

(** No coercion and no case folding: [Role.from("1")] and
    [Status.from("ACTIVE")] are [undefined], [Role.from(2)] is [Role.USER]. *)
Example from_exact_samples :
  (exists h, createBackedEnum RoleEnum EnumCase [] = Returns 0 h /\
     call_from 1 EnumCase 0 (VString "1") h = Returns VUndefined h /\
     call_from 1 EnumCase 0 (VNumber (Fin 999)) h = Returns VUndefined h /\
     call_from 1 EnumCase 0 (VNumber (Fin 2)) h = Returns (read h 0 "USER") h) /\
  (exists h, createBackedEnum StatusEnum EnumCase [] = Returns 0 h /\
     call_from 1 EnumCase 0 (VString "ACTIVE") h = Returns VUndefined h /\
     call_from 1 EnumCase 0 (VString "active") h = Returns (read h 0 "ACTIVE") h).
Proof. split; eexists; repeat split. Qed.

(** C4 fails as stated: with a case named [from], [collection.from] is that
    case instance, and [collection.from(1)] throws instead of returning the
    case whose value is 1. *)
Lemma exact_match_counterexample :
  ~ exact_match_lookup [("from", PNumber (Fin 1))] EnumCase [].
Proof.
  intros (this & h & Hnew & Hall).
  vm_compute in Hnew. injection Hnew as <- <-.
  destruct (Hall 0 (PNumber (Fin 1))) as [(c & k & Hfrom & _)|[Hfrom _]];
    vm_compute in Hfrom; discriminate.
Qed.

(** *** The values projection *)

Lemma mapM_member_value baseEnum CaseClass (h : heap) keys : forall first,
  (forall j k, keys !! j = Some k ->
     h !! (first + j) = Some (OCase CaseClass k (enum_get baseEnum k))) ->
  mapM member_value (map (fun b : string * loc => VRef b.2) (bindings keys first)) h
  = Returns (map (enum_get baseEnum) keys) h.
Proof.
  induction keys as [|k keys IH]; intros first Hh; [done|].
  unfold bindings. simpl. unfold bind at 1. unfold member_value at 1.
  pose proof (Hh 0 k eq_refl) as H0. rewrite Nat.add_0_r in H0. rewrite H0.
  unfold bind at 1. fold (bindings keys (S first)). rewrite IH; [done|].
  intros j k' Hj. replace (S first + j) with (first + S j) by lia.
  by apply Hh.
Qed.

(** C6, as amended: for every definition none of whose case-names is
    [cases], [map] or [values], [values()] returns exactly
    [cases.map(c => c.value)], element for element and in the order of
    [cases], with a shared backing value appearing once per case. *)
Theorem values_are_case_values baseEnum CaseClass h0 :
  avoids ["cases"; "map"; "values"] baseEnum = true ->
  values_projection baseEnum CaseClass h0.
Proof.
  intros Hall. unfold values_projection.
  pose proof (avoids_weaken baseEnum ["cases"; "map"; "values"] ["cases"; "map"] eq_refl Hall) as Hfree.
  pose proof (avoids_weaken baseEnum ["cases"; "map"; "values"] ["values"] eq_refl Hall) as Hvalues.
  eexists _, _, _, _, _. split; [by apply createBackedEnum_spec|].
  split; [by apply read_cases_elems|].
  split.
  { unfold call_values. rewrite own_method_free by done.
    unfold BackedEnum_values, bind. rewrite get_field_read.
    unfold read. rewrite own_cases by done.
    unfold default, from_option, id, Array_map. cbv iota.
    rewrite built_array. unfold bind.
    rewrite (mapM_member_value baseEnum CaseClass).
    - unfold alloc, ret. reflexivity.
    - intros j k Hk. by apply built_instance. }
  split; [done|].
  split; [by rewrite !length_map, bindings_length|].
  split; [|done].
  intros j c Hc. rewrite list_lookup_fmap in Hc.
  destruct (bindings _ _ !! j) as [[k i]|] eqn:Hb; [|done].
  injection Hc as <-.
  pose proof (list_elem_of_lookup_2 _ _ _ Hb) as Hin.
  apply bindings_elem in Hin as (j' & Hj' & ->).
  assert (j' = j) as ->.
  { apply (bindings_lookup _ (List.length h0 + 3)) in Hj'.
    pose proof (lookup_lt_Some _ _ _ Hb) as Hlt. rewrite bindings_length in Hlt.
    destruct (lookup_lt_is_Some_2 (enum_keys baseEnum) j Hlt) as [k' Hk'].
    apply (bindings_lookup _ (List.length h0 + 3)) in Hk'.
    rewrite Hk' in Hb. injection Hb as _ Hb. lia. }
  exists (enum_get baseEnum k). simpl.
  unfold member_value. rewrite (built_instance _ _ _ _ _ Hj').
  split; [done|]. by rewrite list_lookup_fmap, Hj'.
Qed.

Lemma values_are_case_values_witness : values_projection TwinEnum EnumCase [].
Proof. apply values_are_case_values. reflexivity. Defined.

(** [Role.values()] is [[1, 2, 3]]; a shared value is listed twice. *)
Example values_samples :
  (exists h r h', createBackedEnum RoleEnum EnumCase [] = Returns 0 h /\
     call_values 0 h = Returns r h' /\
     array_elems h' r = Some [VNumber (Fin 1); VNumber (Fin 2); VNumber (Fin 3)]) /\
  (exists h r h', createBackedEnum TwinEnum EnumCase [] = Returns 0 h /\
     call_values 0 h = Returns r h' /\
     array_elems h' r = Some [VNumber (Fin 1); VNumber (Fin 1)]).
Proof. split; eexists _, _, _; repeat split. Qed.

(** C6 fails as stated: with a case named [cases], [values()] calls [map] on
    that case instance and throws. *)
Lemma values_counterexample :
  ~ values_projection [("cases", PNumber (Fin 1))] EnumCase [].
Proof.
  intros (this & h & es & r & vs & Hnew & _ & Hcall & _).
  vm_compute in Hnew. injection Hnew as <- <-.
  vm_compute in Hcall. discriminate.
Qed.

(** *** Inputs of other kinds *)

(** [null], [undefined], booleans, bigints, symbols, and every object that
    is not an instance of the case class (plain objects, functions, arrays,
    maps, the collection itself) are of other kinds. *)
Lemma other_kind_values h CaseClass x :
  match x with
  | VString _ | VNumber _ => False
  | VRef l => match h !! l with
              | Some (OCase cls _ _) => class_id CaseClass ∉ class_chain cls
              | _ => True
              end
  | _ => True
  end ->
  other_kind h CaseClass x.
Proof.
  unfold other_kind, instanceof, typeof.
  destruct x as [| | | | | | |l]; try done.
  destruct (h !! l) as [[]|]; try done.
  intros Hcls. by rewrite bool_decide_eq_false_2.
Qed.

Lemma typeof_primitive h x :
  typeof h x = TString \/ typeof h x = TNumber -> exists p, x = prim_value p.
Proof.
  intros Hp. destruct x as [| | |n|s| | |l]; simpl in Hp;
    try (destruct Hp; discriminate).
  - by exists (PNumber n).
  - by exists (PString s).
  - destruct (h !! l) as [[]|]; destruct Hp; discriminate.
Qed.

(** C3, as amended: for every definition none of whose case-names is
    [cases], [map] or [from], [from] returns [undefined] for every input
    that is neither a string nor a number nor an instance of the case class
    ([null], [undefined], plain objects, functions, booleans), and it does
    not throw on a string or a number either: a type mismatch and a lookup
    miss are both answered with the absent result. *)
Theorem from_signals_by_absence baseEnum CaseClass h0 :
  avoids ["cases"; "map"; "from"] baseEnum = true ->
  absent_not_thrown baseEnum CaseClass h0.
Proof.
  intros Hall. unfold absent_not_thrown.
  pose proof (avoids_weaken baseEnum ["cases"; "map"; "from"] ["cases"; "map"] eq_refl Hall) as Hfree.
  pose proof (avoids_weaken baseEnum ["cases"; "map"; "from"] ["from"] eq_refl Hall) as Hfrom.
  eexists _, _. split; [by apply createBackedEnum_spec|].
  intros depth x Hinst.
  destruct (decide (typeof (built_heap baseEnum CaseClass h0) x = TString \/
                    typeof (built_heap baseEnum CaseClass h0) x = TNumber))
    as [Hp|Hp].
  - destruct (typeof_primitive _ _ Hp) as [p ->].
    rewrite call_from_primitive by done. eexists. split; [done|].
    intros (_ & Hs & Hn). tauto.
  - rewrite call_from_method by done.
    rewrite from_other; [|done|tauto|tauto]. by exists VUndefined.
Qed.

Lemma from_signals_by_absence_witness : absent_not_thrown RoleEnum EnumCase [].
Proof. apply from_signals_by_absence. reflexivity. Defined.

(** [from(null)], [from(undefined)], [from({})], [from(() => {})] and
    [from(true)] on [Role]. *)
Example from_type_guard_samples :
  exists h,
    createBackedEnum RoleEnum EnumCase [OPlain []; OFunction] = Returns 2 h /\
    Forall (fun x => other_kind h EnumCase x /\
                     call_from 1 EnumCase 2 x h = Returns VUndefined h)
           [VNull; VUndefined; VRef 0; VRef 1; VBoolean true].
Proof.
  eexists. split; [vm_compute; reflexivity|].
  repeat (apply List.Forall_cons;
          [split; [by apply other_kind_values | reflexivity]|]).
  apply List.Forall_nil.
Qed.

(** C3 fails as stated: with a case named [from], [collection.from] is that
    case instance, and [collection.from(null)] throws. *)
Lemma absent_counterexample :
  ~ absent_not_thrown [("from", PNumber (Fin 1))] EnumCase [].
Proof.
  intros (this & h & Hnew & Hall).
  vm_compute in Hnew. injection Hnew as <- <-.
  destruct (Hall 0 VNull eq_refl) as (r & Hfrom & _).
  vm_compute in Hfrom. discriminate.
Qed.

(** So does a lookup miss when the case is named [map]: [this.map] is then
    that case instance, which has no [get]. *)
Example from_throws_sample :
  exists h,
    createBackedEnum [("map", PNumber (Fin 1))] EnumCase [] = Returns 0 h /\
    call_from 1 EnumCase 0 (VString "absent") h
    = Throws (TypeError "get is not a function").
Proof. eexists. split; reflexivity. Qed.

(** *** The compiled build *)

Section DistFrom.
Variables (baseEnum : EnumLike) (CaseClass : class) (h0 : heap).
Hypothesis Hfree : avoids ["cases"; "map"] baseEnum = true.

Let this : loc := List.length h0.
Let h := built_heap baseEnum CaseClass h0.

Lemma dist_from_built x :
  dist_from this x h
  = Returns (default VUndefined
      (entries_get
         (reverse_index baseEnum (bindings (enum_keys baseEnum) (this + 3)) [])
         x)) h.
Proof.
  unfold dist_from, bind. rewrite get_field_read. subst h this.
  by rewrite read_map_get.
Qed.

(** Away from instances of the case class the two builds agree: the keys
    of the reverse index are strings and numbers only. *)
Lemma dist_from_agrees depth x :
  instanceof h x CaseClass = false ->
  dist_from this x h = BackedEnum_from (S depth) CaseClass this x h.
Proof.
  intros Hinst. rewrite dist_from_built.
  destruct (decide (typeof h x = TString \/ typeof h x = TNumber)) as [Hp|Hp].
- destruct (typeof_primitive _ _ Hp) as [p ->].
  rewrite from_primitive. subst h this. by rewrite read_map_get.
  - rewrite from_other; [|done|tauto|tauto].
    destruct (entries_get _ x) as [r|] eqn:Hget; [|done].
    apply reverse_index_hit in Hget as [Hget|(k & i & Hin & -> & Hv)];
      [done|].
    apply bindings_elem in Hin as (j & Hj & _).
    assert (k ∈ Object_keys baseEnum) as Hk.
    { apply (enum_keys_spec baseEnum). apply list_elem_of_lookup. by exists j. }
    destruct (enum_get_prim baseEnum k Hk) as [p Hp'].
    exfalso. apply Hp. rewrite <- Hv, Hp'. destruct p; simpl; tauto.
Qed.
End DistFrom.

(** C10 does not hold: on [Role], the source's [from(Role.ADMIN)] is
    [Role.ADMIN], the compiled build's is [undefined]. *)
Theorem dist_from_differs_on_instances :
  exists h admin,
    createBackedEnum RoleEnum EnumCase [] = Returns 0 h /\
    read h 0 "ADMIN" = admin /\
    instanceof h admin EnumCase = true /\
    BackedEnum_from 2 EnumCase 0 admin h = Returns admin h /\
    dist_from 0 admin h = Returns VUndefined h /\
    admin <> VUndefined.
Proof. eexists _, _. repeat split. discriminate. Qed.

(** ** Trait composition: [createEnumCase] *)

Lemma compose_skip (traits : list (gmap string method)) table f :
  Forall (fun t => t !! f = None) traits ->
  fold_left (fun table trait => trait ∪ table) traits table !! f = table !! f.
Proof.
  revert table. induction traits as [|t traits IH]; intros table Hall; [done|].
  apply Forall_cons in Hall as [Ht Hall]. simpl.
  rewrite IH by done. by rewrite lookup_union_r.
Qed.

Lemma compose_last (before after : list (gmap string method)) M table f m :
  M !! f = Some m ->
  Forall (fun t => t !! f = None) after ->
  fold_left (fun table trait => trait ∪ table) (before ++ M :: after) table !! f
  = Some m.
Proof.
  intros HM Hafter. rewrite fold_left_app. simpl.
  rewrite compose_skip by done. by apply lookup_union_Some_l.
Qed.

(** C9: the method [f] of the composed case type is the one of the last
    module, in the supplied order, that defines [f], whatever the modules
    before it or the base define; so for two modules that both define [f],
    [[M1, M2]] gives [M2]'s and [[M2, M1]] gives [M1]'s, and a module's
    method replaces the base's. *)
Theorem trait_conflicts_last_wins id (before after : list (gmap string method))
    (M M1 M2 : gmap string method) f m m1 m2 :
  M !! f = Some m -> M1 !! f = Some m1 -> M2 !! f = Some m2 ->
  Forall (fun t => t !! f = None) after ->
  ct_methods (createEnumCase id (before ++ M :: after)) !! f = Some m /\
  ct_methods (createEnumCase id [M1; M2]) !! f = Some m2 /\
  ct_methods (createEnumCase id [M2; M1]) !! f = Some m1 /\
  ct_methods (createEnumCase id [M]) !! f = Some m.
Proof.
  intros HM H1 H2 Hafter. unfold createEnumCase, withTraits.
  cbn [ct_methods]. split; [by apply compose_last|].
  split; [by apply (compose_last [M1] [])|].
  split; [by apply (compose_last [M2] [])|].
  by apply (compose_last [] []).
Qed.

Lemma trait_conflicts_last_wins_witness :
  ct_methods (createEnumCase 1 [Comparable; Stringable]) !! "toString"
    = Some (fun _ name _ _ => VString name) /\
  ct_methods (createEnumCase 1 [Valuable; Stringable]) !! "toString"
    = Some (fun _ name _ _ => VString name) /\
  ct_methods (createEnumCase 1 [Stringable; Valuable]) !! "toString"
    = Some (fun _ _ value _ => String_ value) /\
  ct_methods (createEnumCase 1 [Stringable]) !! "toString"
    = Some (fun _ name _ _ => VString name).
Proof.
  apply (trait_conflicts_last_wins 1 [Comparable] [] Stringable Valuable Stringable
           "toString"); try reflexivity.
  constructor.
Defined.

(** [String(Role.USER)] is ["USER"] with the traits, [String(Status.PENDING)]
    is ["pending"] without, and [Role.ADMIN.is(Role.USER)] is [false]. *)
Example scenario_samples :
  (exists h, createBackedEnum RoleEnum (ct_class RoleCase) [] = Returns 0 h /\
     call_method RoleCase h (read h 0 "USER") "toString" [] = Some (VString "USER") /\
     call_method RoleCase h (read h 0 "ADMIN") "is" [read h 0 "USER"]
       = Some (VBoolean false) /\
     call_method RoleCase h (read h 0 "ADMIN") "is" [read h 0 "ADMIN"]
       = Some (VBoolean true) /\
     instanceof h (read h 0 "ADMIN") EnumCase = true) /\
  (exists h, createBackedEnum StatusEnum EnumCase [] = Returns 0 h /\
     call_method EnumCase_type h (read h 0 "PENDING") "toString" []
       = Some (VString "pending")) /\
  (exists h, createBackedEnum RoleEnum EnumCase [] = Returns 0 h /\
     call_method EnumCase_type h (read h 0 "GUEST") "toString" []
       = Some (VString "3")).
Proof. repeat split; eexists; repeat split. Qed.

(** ** Further properties of the code *)

(** *** Construction only allocates *)

Section Frame.
Variables (baseEnum : EnumLike) (CaseClass : class) (h0 : heap).

Local Abbreviation n := (List.length h0).

Lemma insert_above (b x : object) (rest : heap) l :
  n < l ->
  <[l := x]> (h0 ++ b :: rest) = h0 ++ b :: <[l - S n := x]> rest.
Proof.
  intros Hl. rewrite insert_app_r_alt by lia.
  by replace (l - List.length h0) with (S (l - S (List.length h0))) by lia.
Qed.

Lemma owned_refs_get props k v :
  owned_refs n props -> prop_get props k = Some v ->
  exists l, v = VRef l /\ n < l.
Proof.
  intros Hall. induction Hall as [|[k0 v0] t Hkv _ IH]; simpl; [done|].
  case_decide; [|done]. intros [= <-]. exact Hkv.
Qed.

Lemma owned_refs_define props k l :
  owned_refs n props -> n < l -> owned_refs n (prop_define props k (VRef l)).
Proof.
  intros Hall Hl. induction Hall as [|[k0 v0] t Hkv Ht IH]; simpl.
  - repeat constructor. by exists l.
  - case_decide; constructor; try done. by exists l.
Qed.

Lemma constructor_body_frame props rest key h' :
  owned_refs n props ->
  constructor_body baseEnum CaseClass n key (h0 ++ OBackedEnum props :: rest)
  = Returns tt h' ->
  exists props' rest',
    h' = h0 ++ OBackedEnum props' :: rest' /\ owned_refs n props'.
Proof.
  intros Hown. unfold constructor_body, new_case, bind, alloc, ret, get_field.
  rewrite <- app_assoc. simpl. rewrite lookup_mid0.
  set (m := List.length (h0 ++ OBackedEnum props :: rest)).
  assert (n < m) as Hm by (subst m; rewrite length_app; simpl; lia).
  destruct (prop_get props "cases") as [a|] eqn:Ha; [|done].
  destruct (owned_refs_get _ _ _ Hown Ha) as (la & -> & Hla). simpl.
  destruct (_ !! la) as [[| es | | | |]|]; try done.
  rewrite insert_above by done. rewrite lookup_mid0.
  destruct (prop_get props "map") as [mp|] eqn:Hmp; [|done].
  destruct (owned_refs_get _ _ _ Hown Hmp) as (lm & -> & Hlm). simpl.
  destruct (_ !! lm) as [[| | ents | | |]|]; try done.
  rewrite insert_above by done.
  unfold defineProperty. rewrite lookup_mid0, insert_mid0.
  intros [= <-]. eexists _, _. split; [done|].
  by apply owned_refs_define.
Qed.

Lemma for_of_frame keys : forall props rest h',
  owned_refs n props ->
  for_of keys (constructor_body baseEnum CaseClass n) (h0 ++ OBackedEnum props :: rest)
  = Returns tt h' ->
  exists props' rest',
    h' = h0 ++ OBackedEnum props' :: rest' /\ owned_refs n props'.
Proof.
  induction keys as [|key keys IH]; intros props rest h' Hown.
  - simpl. unfold ret. intros [= <-]. by eexists _, _.
  - cbn [for_of]. unfold bind at 1.
    destruct (constructor_body _ _ _ key _) as [[] h1|] eqn:Hstep; [|done].
    apply constructor_body_frame in Hstep as (props1 & rest1 & -> & Hown1);
      [|done].
    by apply IH.
Qed.

Lemma createBackedEnum_frame this h :
  createBackedEnum baseEnum CaseClass h0 = Returns this h ->
  this = n /\ exists props rest, h = h0 ++ OBackedEnum props :: rest.
Proof.
  unfold createBackedEnum, BackedEnum_new, bind, alloc, ret.
  unfold defineProperty.
  rewrite !length_app. simpl. rewrite <- !app_assoc. simpl.
  rewrite lookup_mid0, insert_mid0. simpl.
  rewrite length_app, <- app_assoc. simpl.
  rewrite lookup_mid0, insert_mid0. simpl.
  destruct (for_of _ _ _) as [[] h1|] eqn:Hloop; [|done].
  intros [= <- <-]. split; [done|].
  apply for_of_frame in Hloop as (props' & rest' & -> & _); [by eexists _, _|].
  repeat constructor; simpl; eexists; (split; [done|]); lia.
Qed.
End Frame.

(** X1: whenever construction returns, for any definition at all, the new
    collection is a new object and every object that existed before is
    where it was and as it was: construction allocates and writes only to
    what it allocated. *)
Theorem construction_preserves_heap baseEnum CaseClass h0 this h :
  createBackedEnum baseEnum CaseClass h0 = Returns this h ->
  h0 !! this = None /\
  (exists props, h !! this = Some (OBackedEnum props)) /\
  forall l o, h0 !! l = Some o -> h !! l = Some o.
Proof.
  intros Hnew.
  apply createBackedEnum_frame in Hnew as (-> & props & rest & ->).
  split; [by apply lookup_ge_None|].
  split; [exists props; apply lookup_mid0|].
  intros l o Hl. by apply lookup_app_l_Some.
Qed.

Lemma construction_preserves_heap_witness :
  exists h,
    createBackedEnum [("map", PNumber (Fin 1))] EnumCase [OPlain []; OFunction]
      = Returns 2 h /\
    h !! 0 = Some (OPlain []) /\ h !! 1 = Some OFunction.
Proof.
  eexists. split; [vm_compute; reflexivity|].
  split;
    apply (construction_preserves_heap [("map", PNumber (Fin 1))] EnumCase
             [OPlain []; OFunction] 2 _ eq_refl).
  - reflexivity.
  - reflexivity.
Defined.

(** *** When construction throws *)

Section Throwing.
Variables (baseEnum : EnumLike) (CaseClass : class) (h0 : heap).

Local Abbreviation n := (List.length h0).
Local Abbreviation body := (constructor_body baseEnum CaseClass n).
Local Abbreviation field k := (k = "cases" \/ k = "map").










End Throwing.


(** *** What [from] can return *)

Section FromResults.
Variables (baseEnum : EnumLike) (CaseClass : class) (h0 : heap).
Hypothesis Hfree : avoids ["cases"; "map"] baseEnum = true.
Hypothesis Hfrom : avoids ["from"] baseEnum = true.

Local Abbreviation n := (List.length h0).
Local Abbreviation h := (built_heap baseEnum CaseClass h0).
Local Abbreviation keys := (enum_keys baseEnum).

(** Among the carriers of a value there is a last one. *)
Lemma last_carrier (l : list string) v :
  (exists j k, l !! j = Some k /\ enum_get baseEnum k = v) ->
  exists j k, l !! j = Some k /\ enum_get baseEnum k = v /\
    forall j' k', j < j' -> l !! j' = Some k' -> enum_get baseEnum k' <> v.
Proof.
  induction l as [|x l IH] using rev_ind; intros (j & k & Hj & Hv).
  - by rewrite lookup_nil in Hj.
  - destruct (decide (enum_get baseEnum x = v)) as [Hx|Hx].
    + exists (List.length l), x. split; [by apply list_lookup_middle|].
      split; [done|]. intros j' k' Hlt Hj'.
      apply lookup_lt_Some in Hj'. rewrite length_app in Hj'. simpl in Hj'. lia.
    + assert (j < List.length l) as Hlt.
      { pose proof (lookup_lt_Some _ _ _ Hj) as Hlen.
        rewrite length_app in Hlen. simpl in Hlen.
        destruct (decide (j = List.length l)) as [->|]; [|lia].
        rewrite list_lookup_middle in Hj by done. congruence. }
      rewrite lookup_app_l in Hj by done.
      destruct IH as (j1 & k1 & Hj1 & Hv1 & Hlast); [by exists j, k|].
      exists j1, k1. split; [by apply lookup_app_l_Some|]. split; [done|].
      intros j' k' Hlt' Hj'.
      destruct (decide (j' < List.length l)) as [Hin|Hout].
      * rewrite lookup_app_l in Hj' by done. by apply (Hlast j').
      * pose proof (lookup_lt_Some _ _ _ Hj') as Hlen.
        rewrite length_app in Hlen. simpl in Hlen.
        assert (j' = List.length l) as -> by lia.
        rewrite list_lookup_middle in Hj' by done. congruence.
Qed.

Lemma last_carrier_of j k :
  keys !! j = Some k ->
  exists j' k', j <= j' /\ keys !! j' = Some k' /\
    enum_get baseEnum k' = enum_get baseEnum k /\
    last_with_value baseEnum j' k'.
Proof.
  intros Hj.
  destruct (last_carrier keys (enum_get baseEnum k))
    as (j' & k' & Hj' & Hv & Hlast); [by exists j, k|].
  exists j', k'. split.
  - destruct (decide (j <= j')); [done|]. exfalso.
    apply (Hlast j k); [lia|done..].
  - split; [done|]. split; [done|].
    intros j2 k2 Hlt Hj2. rewrite Hv. by apply (Hlast j2).
Qed.

(** A string or a number is answered with [undefined] or with the last case
    that carries it. *)
Lemma call_from_primitive_shape depth p :
  exists r,
    call_from (S depth) CaseClass n (prim_value p) h = Returns r h /\
    (r = VUndefined \/
     exists j k, keys !! j = Some k /\ last_with_value baseEnum j k /\
                 enum_get baseEnum k = prim_value p /\ r = VRef (n + 3 + j)).
Proof.
  pose proof (call_from_primitive baseEnum CaseClass h0 Hfree Hfrom depth p)
    as Hcall.
  destruct (entries_get _ _) as [r|] eqn:Hget.
  - apply reverse_index_hit in Hget as [Hget|(k0 & i & Hin & _ & Hv0)]; [done|].
    apply bindings_elem in Hin as (j0 & Hj0 & _).
    destruct (last_carrier keys (prim_value p)) as (j & k & Hj & Hv & Hlast);
      [by exists j0, k0|].
    assert (last_with_value baseEnum j k) as Hlw.
    { intros j' k' Hlt Hj'. rewrite Hv. by apply (Hlast j'). }
    exists (VRef (n + 3 + j)). split.
    + rewrite <- Hv. by apply call_from_value.
    + right. by exists j, k.
  - exists VUndefined. split; [done|by left].
Qed.

Lemma from_shape depth : forall x,
  match BackedEnum_from depth CaseClass n x h with
  | Returns r h' =>
      h' = h /\
      (r = VUndefined \/
       exists j k, keys !! j = Some k /\ last_with_value baseEnum j k /\
                   r = VRef (n + 3 + j))
  | Throws e => exists msg, e = RangeError msg
  end.
Proof.
  induction depth as [|depth IH]; intros x; [by eexists|].
  destruct (instanceof h x CaseClass) eqn:Hinst.
  - unfold instanceof in Hinst. destruct x as [| | | | | | |l]; try done.
    destruct (h !! l) as [[cls name v| | | | |]|] eqn:Hl; try done.
    apply bool_decide_eq_true in Hinst.
    rewrite (from_instance _ _ _ _ _ _ _ _ Hl Hinst). apply IH.
  - destruct (decide (typeof h x = TString \/ typeof h x = TNumber)) as [Hp|Hp].
    + destruct (typeof_primitive _ _ Hp) as [p ->].
      destruct (call_from_primitive_shape depth p) as (r & Hr & Hshape).
      rewrite call_from_method in Hr by done. rewrite Hr.
      split; [done|]. destruct Hshape as [->|(j & k & ? & ? & _ & ->)];
        [by left|right; by exists j, k].
    + rewrite from_other; [|done|tauto|tauto]. split; [done|by left].
Qed.
End FromResults.

(** X3: on a collection built from a definition without a case named
    [cases], [map] or [from], whatever the argument, [from] leaves the heap
    as it is and returns [undefined] or one of the collection's own cases;
    the only thing it can throw is the [RangeError] of an exhausted call
    stack. *)
Theorem from_returns_own_case_or_undefined baseEnum CaseClass h0 :
  avoids ["cases"; "map"; "from"] baseEnum = true ->
  exists this h es,
    createBackedEnum baseEnum CaseClass h0 = Returns this h /\
    array_elems h (read h this "cases") = Some es /\
    forall depth x,
      match call_from depth CaseClass this x h with
      | Returns r h' => h' = h /\ (r = VUndefined \/ r ∈ es)
      | Throws e => exists msg, e = RangeError msg
      end.
Proof.
  intros Hall.
  pose proof (avoids_weaken baseEnum ["cases"; "map"; "from"] ["cases"; "map"]
                eq_refl Hall) as Hfree.
  pose proof (avoids_weaken baseEnum ["cases"; "map"; "from"] ["from"]
                eq_refl Hall) as Hfrom.
  eexists _, _, _. split; [by apply createBackedEnum_spec|].
  split; [by apply read_cases_elems|].
  intros depth x. rewrite call_from_method by done.
  pose proof (from_shape baseEnum CaseClass h0 Hfree Hfrom depth x) as Hshape.
  destruct (BackedEnum_from _ _ _ _ _) as [r h'|e]; [|done].
  destruct Hshape as [-> [->|(j & k & Hj & _ & ->)]]; (split; [done|]);
    [by left|right].
  apply list_elem_of_lookup. exists j. rewrite list_lookup_fmap.
  by rewrite (proj1 (bindings_lookup _ (List.length h0 + 3) j k) Hj).
Qed.

Lemma from_returns_own_case_or_undefined_witness :
  exists this h es,
    createBackedEnum TwinEnum EnumCase [] = Returns this h /\
    array_elems h (read h this "cases") = Some es /\
    forall depth x,
      match call_from depth EnumCase this x h with
      | Returns r h' => h' = h /\ (r = VUndefined \/ r ∈ es)
      | Throws e => exists msg, e = RangeError msg
      end.
Proof. apply from_returns_own_case_or_undefined. reflexivity. Defined.

(** X4: what [from] returns it returns again when given its own result:
    [from(from(x)) === from(x)] for every argument [x], also when cases
    share a backing value. *)
Theorem from_of_from baseEnum CaseClass h0 :
  avoids ["cases"; "map"; "from"] baseEnum = true ->
  exists this h,
    createBackedEnum baseEnum CaseClass h0 = Returns this h /\
    forall depth x r,
      call_from depth CaseClass this x h = Returns r h ->
      forall depth', call_from (S (S depth')) CaseClass this r h = Returns r h.
Proof.
  intros Hall.
  pose proof (avoids_weaken baseEnum ["cases"; "map"; "from"] ["cases"; "map"]
                eq_refl Hall) as Hfree.
  pose proof (avoids_weaken baseEnum ["cases"; "map"; "from"] ["from"]
                eq_refl Hall) as Hfrom.
  eexists _, _. split; [by apply createBackedEnum_spec|].
  intros depth x r Hr depth'. rewrite call_from_method in Hr by done.
  pose proof (from_shape baseEnum CaseClass h0 Hfree Hfrom depth x) as Hshape.
  rewrite Hr in Hshape. destruct Hshape as [_ [->|(j & k & Hj & Hlast & ->)]].
  - rewrite call_from_method by done. by apply from_other.
  - by apply (call_from_case baseEnum CaseClass h0 Hfree Hfrom depth' j k).
Qed.

Lemma from_of_from_witness :
  exists this h,
    createBackedEnum TwinEnum EnumCase [] = Returns this h /\
    forall depth x r,
      call_from depth EnumCase this x h = Returns r h ->
      forall depth', call_from (S (S depth')) EnumCase this r h = Returns r h.
Proof. apply from_of_from. reflexivity. Defined.

(** X5: given a case of the collection, [from] returns the last case of
    [cases] that carries the same backing value: the case itself, or the
    later one that replaced it in the reverse index; never [undefined]. *)
Theorem from_case_gives_last_carrier baseEnum CaseClass h0 :
  avoids ["cases"; "map"; "from"] baseEnum = true ->
  exists this h es,
    createBackedEnum baseEnum CaseClass h0 = Returns this h /\
    array_elems h (read h this "cases") = Some es /\
    forall depth j c,
      es !! j = Some c ->
      exists j' c' v,
        j <= j' /\ es !! j' = Some c' /\
        member_value c h = Returns v h /\ member_value c' h = Returns v h /\
        (forall i ci, j' < i -> es !! i = Some ci ->
                      member_value ci h <> Returns v h) /\
        call_from (S (S depth)) CaseClass this c h = Returns c' h.
Proof.
  intros Hall.
  pose proof (avoids_weaken baseEnum ["cases"; "map"; "from"] ["cases"; "map"]
                eq_refl Hall) as Hfree.
  pose proof (avoids_weaken baseEnum ["cases"; "map"; "from"] ["from"]
                eq_refl Hall) as Hfrom.
  eexists _, _, _. split; [by apply createBackedEnum_spec|].
  split; [by apply read_cases_elems|].
  assert (forall i ci, map (fun b : string * loc => VRef b.2)
                         (bindings (enum_keys baseEnum) (List.length h0 + 3)) !! i
                       = Some ci ->
            exists ki, enum_keys baseEnum !! i = Some ki /\
                       ci = VRef (List.length h0 + 3 + i)) as Helem.
  { intros i ci Hi. rewrite list_lookup_fmap in Hi.
    destruct (bindings _ _ !! i) as [[ki li]|] eqn:Hb; [|done].
    injection Hi as <-.
    pose proof (lookup_lt_Some _ _ _ Hb) as Hlt. rewrite bindings_length in Hlt.
    destruct (lookup_lt_is_Some_2 (enum_keys baseEnum) i Hlt) as [k' Hk'].
    pose proof (proj1 (bindings_lookup _ (List.length h0 + 3) i k') Hk') as Hb'.
    rewrite Hb' in Hb. injection Hb as ? ?. subst. by eexists. }
  intros depth j c Hc. destruct (Helem j c Hc) as (k & Hk & ->).
  destruct (last_carrier_of baseEnum j k Hk) as (j' & k' & Hle & Hk' & Hv & Hlast).
  exists j', (VRef (List.length h0 + 3 + j')), (enum_get baseEnum k).
  split; [done|].
  split.
  { rewrite list_lookup_fmap.
    by rewrite (proj1 (bindings_lookup _ (List.length h0 + 3) j' k') Hk'). }
  split; [unfold member_value; by rewrite (built_instance _ _ _ _ _ Hk)|].
  split; [unfold member_value; by rewrite (built_instance _ _ _ _ _ Hk'), Hv|].
  split.
  { intros i ci Hlt Hi. destruct (Helem i ci Hi) as (ki & Hki & ->).
    unfold member_value. rewrite (built_instance _ _ _ _ _ Hki).
    intros [= Heq]. apply (Hlast i ki Hlt Hki). by rewrite Hv. }
  rewrite call_from_method by done.
  rewrite (from_instance _ _ _ _ CaseClass k (enum_get baseEnum k));
    [|by apply built_instance|by left].
  rewrite <- call_from_method by done. rewrite <- Hv.
  by apply call_from_value.
Qed.

Lemma from_case_gives_last_carrier_witness :
  exists this h es,
    createBackedEnum TwinEnum EnumCase [] = Returns this h /\
    array_elems h (read h this "cases") = Some es /\
    forall depth j c,
      es !! j = Some c ->
      exists j' c' v,
        j <= j' /\ es !! j' = Some c' /\
        member_value c h = Returns v h /\ member_value c' h = Returns v h /\
        (forall i ci, j' < i -> es !! i = Some ci ->
                      member_value ci h <> Returns v h) /\
        call_from (S (S depth)) EnumCase this c h = Returns c' h.
Proof. apply from_case_gives_last_carrier. reflexivity. Defined.

(** *** A definition without case-names *)

(** X6: a definition that is empty, or whose keys all parse as numbers,
    gives a collection without cases: [cases] is empty, [values()] returns a
    new empty array, and [from] returns [undefined] for every argument that
    is not a case instance. *)
Theorem empty_definition baseEnum CaseClass h0 :
  enum_keys baseEnum = [] ->
  exists this h,
    createBackedEnum baseEnum CaseClass h0 = Returns this h /\
    array_elems h (read h this "cases") = Some [] /\
    call_values this h = Returns (VRef (List.length h)) (h ++ [OArray []]) /\
    forall depth x,
      instanceof h x CaseClass = false ->
      call_from (S depth) CaseClass this x h = Returns VUndefined h.
Proof.
  intros Hkeys.
  assert (forall names, avoids names baseEnum = true) as Havoid
    by (intros names; unfold avoids; by rewrite Hkeys).
  eexists _, _. split; [by apply createBackedEnum_spec|].
  split; [rewrite read_cases_elems by done; by rewrite Hkeys|].
  split.
  { unfold call_values. rewrite own_method_free by done.
    unfold BackedEnum_values, bind. rewrite get_field_read.
    unfold read. rewrite own_cases by done.
    unfold default, from_option, id, Array_map. cbv iota.
    rewrite built_array, Hkeys. reflexivity. }
  intros depth x Hinst. rewrite call_from_method by done.
  destruct (decide (typeof (built_heap baseEnum CaseClass h0) x = TString \/
                    typeof (built_heap baseEnum CaseClass h0) x = TNumber))
    as [Hp|Hp].
  - destruct (typeof_primitive _ _ Hp) as [p ->].
    rewrite <- call_from_method by done.
    rewrite call_from_primitive by done. by rewrite Hkeys.
  - rewrite from_other; [done|done|tauto|tauto].
Qed.

Lemma empty_definition_witness :
  exists this h,
    createBackedEnum [("1", PString "ADMIN"); ("2", PString "USER")] EnumCase []
      = Returns this h /\
    array_elems h (read h this "cases") = Some [] /\
    call_values this h = Returns (VRef (List.length h)) (h ++ [OArray []]) /\
    forall depth x,
      instanceof h x EnumCase = false ->
      call_from (S depth) EnumCase this x h = Returns VUndefined h.
Proof. apply empty_definition. reflexivity. Defined.

(** *** The compiled build, away from instances and on them *)

(** X7: on a collection built from a definition without a case named
    [cases] or [map], [from] of dist/index.js and [from] of src/index.ts
    return the same for every argument that is not an instance of the case
    class. *)
Theorem dist_from_agrees_off_instances baseEnum CaseClass h0 :
  avoids ["cases"; "map"] baseEnum = true ->
  exists this h,
    createBackedEnum baseEnum CaseClass h0 = Returns this h /\
    forall depth x,
      instanceof h x CaseClass = false ->
      dist_from this x h = BackedEnum_from (S depth) CaseClass this x h.
Proof.
  intros Hfree. eexists _, _. split; [by apply createBackedEnum_spec|].
  intros depth x Hinst. by apply dist_from_agrees.
Qed.

Lemma dist_from_agrees_off_instances_witness :
  exists this h,
    createBackedEnum RoleEnum EnumCase [] = Returns this h /\
    forall depth x,
      instanceof h x EnumCase = false ->
      dist_from this x h = BackedEnum_from (S depth) EnumCase this x h.
Proof. apply dist_from_agrees_off_instances. reflexivity. Defined.

(** X8: [from] of dist/index.js returns [undefined] for every object, so in
    particular for every case of the collection: the keys of the reverse
    index are strings and numbers. *)
Theorem dist_from_misses_objects baseEnum CaseClass h0 :
  avoids ["cases"; "map"] baseEnum = true ->
  exists this h es,
    createBackedEnum baseEnum CaseClass h0 = Returns this h /\
    array_elems h (read h this "cases") = Some es /\
    (forall l, dist_from this (VRef l) h = Returns VUndefined h) /\
    (forall c, c ∈ es -> dist_from this c h = Returns VUndefined h).
Proof.
  intros Hfree. eexists _, _, _. split; [by apply createBackedEnum_spec|].
  split; [by apply read_cases_elems|].
  assert (forall l, dist_from (List.length h0) (VRef l)
                      (built_heap baseEnum CaseClass h0)
                    = Returns VUndefined (built_heap baseEnum CaseClass h0))
    as Hobj.
  { intros l. rewrite dist_from_built by done.
    destruct (entries_get _ _) as [r|] eqn:Hget; [|done].
    apply reverse_index_hit in Hget as [Hget|(k & i & Hin & _ & Hv)]; [done|].
    apply bindings_elem in Hin as (j & Hj & _).
    assert (k ∈ Object_keys baseEnum) as Hk.
    { apply (enum_keys_spec baseEnum). apply list_elem_of_lookup. by exists j. }
    destruct (enum_get_prim baseEnum k Hk) as [p Hp].
    rewrite Hp in Hv. by destruct p. }
  split; [done|].
  intros c Hc. apply list_elem_of_fmap in Hc as ([k l] & -> & _). apply Hobj.
Qed.

Lemma dist_from_misses_objects_witness :
  exists this h es,
    createBackedEnum RoleEnum EnumCase [] = Returns this h /\
    array_elems h (read h this "cases") = Some es /\
    (forall l, dist_from this (VRef l) h = Returns VUndefined h) /\
    (forall c, c ∈ es -> dist_from this c h = Returns VUndefined h).
Proof. apply dist_from_misses_objects. reflexivity. Defined.

(** *** The key filter on names and on numerals *)

Section KeyFilter.
Import StringToNumber.

Lemma trim_start_spec l :
  exists ws,
    forallb StrWhiteSpaceChar ws = true /\ l = ws ++ trim_start l /\
    match trim_start l with
    | c :: _ => StrWhiteSpaceChar c = false
    | [] => True
    end.
Proof.
  induction l as [|c l (ws & Hws & Hl & Hhead)]; [by exists []|].
  simpl. destruct (StrWhiteSpaceChar c) eqn:Hc.
  - exists (c :: ws). simpl. rewrite Hc, Hws. split; [done|].
    split; [by rewrite <- Hl|done].
  - by exists [].
Qed.

Lemma trim_start_app ws l :
  forallb StrWhiteSpaceChar ws = true ->
  match l with c :: _ => StrWhiteSpaceChar c = false | [] => True end ->
  trim_start (ws ++ l) = l.
Proof.
  intros Hws Hl. induction ws as [|w ws IH]; simpl.
  - destruct l as [|c l]; [done|]. simpl. by rewrite Hl.
  - simpl in Hws. apply andb_true_iff in Hws as [-> Hws]. by apply IH.
Qed.

(** Trimming a string whose first character is not white space keeps that
    character and cuts a run of white space off the end. *)
Lemma trim_spec c t :
  StrWhiteSpaceChar c = false ->
  exists t' ws,
    trim (c :: t) = c :: t' /\ forallb StrWhiteSpaceChar ws = true /\
    c :: t = (c :: t') ++ ws.
Proof.
  intros Hc. unfold trim. cbn [trim_start]. rewrite Hc.
  destruct (trim_start_spec (rev (c :: t))) as (ws & Hws & Hrev & Hhead).
  clear Hhead.
  destruct (decide (trim_start (rev (c :: t)) = [])) as [Hnil|Hne].
  - rewrite Hnil, app_nil_r in Hrev.
    assert (c ∈ ws) as Hin
      by (rewrite <- Hrev; apply list_elem_of_In, (proj1 (in_rev (c :: t) c));
          by left).
    rewrite forallb_forall in Hws.
    apply list_elem_of_In, Hws in Hin. congruence.
  - destruct (exists_last Hne) as (u & d & Hu). rewrite Hu in *.
    apply (f_equal (@rev ascii)) in Hrev.
    rewrite rev_involutive, !rev_app_distr in Hrev. simpl in Hrev.
    injection Hrev as -> Ht.
    exists (rev u), (rev ws). rewrite rev_app_distr. simpl.
    split; [done|]. split; [|by rewrite Ht].
    rewrite forallb_forall in *. intros x Hx. apply Hws. by apply in_rev.
Qed.

Lemma trim_fixed s d :
  StrWhiteSpaceChar d = false ->
  match s with c :: _ => StrWhiteSpaceChar c = false | [] => True end ->
  forall ws, forallb StrWhiteSpaceChar ws = true ->
  trim ((s ++ [d]) ++ ws) = s ++ [d].
Proof.
  intros Hd Hs ws Hws. unfold trim.
  assert (trim_start ((s ++ [d]) ++ ws) = (s ++ [d]) ++ ws) as ->.
  { destruct s as [|c s]; simpl; [by rewrite Hd|by rewrite Hs]. }
  rewrite rev_app_distr, trim_start_app.
  - apply rev_involutive.
  - rewrite forallb_forall in *. intros x Hx. apply Hws. by apply in_rev.
  - rewrite rev_app_distr. by simpl.
Qed.

Lemma IdentifierStart_char c :
  IdentifierStart c = true ->
  StrWhiteSpaceChar c = false /\ is_sign c = false /\ DecimalDigit c = false /\
  (code c =? 46)%nat = false /\ (code c =? 48)%nat = false.
Proof.
  destruct c as [[] [] [] [] [] [] [] []]; vm_compute; intros; done.
Qed.


(** A name read as a number: only [Infinity] is one. *)
Lemma named_numeric c t' :
  IdentifierStart c = true ->
  StrDecimalLiteral (c :: t') || NonDecimalIntegerLiteral (c :: t')
  = bool_decide (c :: t' = list_ascii_of_string "Infinity").
Proof.
  intros Hc. destruct (IdentifierStart_char c Hc) as (_ & Hs & Hd & Hdot & Hz).
  unfold StrDecimalLiteral, strip_sign. rewrite Hs.
  unfold StrUnsignedDecimalLiteral.
  case_bool_decide; [done|].
  cbn [span_digits]. rewrite Hd. rewrite Hdot. cbn [nonempty andb orb].
  unfold NonDecimalIntegerLiteral. destruct t' as [|p ds]; [done|].
  by rewrite Hz.
Qed.





End KeyFilter.


(** X10: a key that starts with a letter, [_] or [$] is kept as a case-name
    unless it is [Infinity], possibly followed by white space: a member
    named [Infinity] gets no case. *)
Theorem names_are_kept_but_Infinity (c : ascii) (t : string) :
  IdentifierStart c = true ->
  isNaN_Number (String c t) = false <->
  exists ws,
    forallb StringToNumber.StrWhiteSpaceChar ws = true /\
    c :: list_ascii_of_string t = list_ascii_of_string "Infinity" ++ ws.
Proof.
  intros Hc. unfold isNaN_Number. rewrite negb_false_iff.
  destruct (IdentifierStart_char c Hc) as (Hws & _).
  unfold StringToNumber.StringNumericLiteral.
  change (list_ascii_of_string (String c t)) with (c :: list_ascii_of_string t).
  split.
  - destruct (trim_spec c (list_ascii_of_string t) Hws)
      as (t' & ws & Htrim & Hwsp & Heq).
    rewrite Htrim, named_numeric by done.
    intros Hinf%bool_decide_eq_true. exists ws. by rewrite Heq, Hinf.
  - intros (ws & Hwsp & Heq). rewrite Heq.
    replace (list_ascii_of_string "Infinity" ++ ws)
      with ((list_ascii_of_string "Infinit" ++ ["y"%char]) ++ ws)
      by reflexivity.
    by rewrite trim_fixed.
Qed.

Lemma names_are_kept_but_Infinity_witness :
  isNaN_Number "Infinity" = false <->
  exists ws,
    forallb StringToNumber.StrWhiteSpaceChar ws = true /\
    list_ascii_of_string "Infinity" = list_ascii_of_string "Infinity" ++ ws.
Proof. apply (names_are_kept_but_Infinity "I" "nfinity"). reflexivity. Defined.

(** [NaN], [Infinity_] and [infinity] are kept; [Infinity] is not. *)
Example named_keys_samples :
  map isNaN_Number ["NaN"; "Infinity_"; "infinity"; "Infinity"; "Infinity "]
  = [true; true; true; false; false].
Proof. reflexivity. Qed.

(** *** [toString] and [from] *)

(** X11: with the default case class, [from(c.toString())] is [c] for a
    case backed by a string (that no later case shares), and is never [c]
    for a case backed by a number: [toString] gives a string, and a string
    does not match a number. *)
Theorem toString_then_from baseEnum h0 :
  avoids ["cases"; "map"; "from"] baseEnum = true ->
  exists this h,
    createBackedEnum baseEnum EnumCase h0 = Returns this h /\
    forall depth j k,
      enum_keys baseEnum !! j = Some k ->
      let c := index h (read h this "cases") j in
      (forall s, enum_get baseEnum k = VString s ->
         call_method EnumCase_type h c "toString" [] = Some (VString s) /\
         (last_with_value baseEnum j k ->
          call_from (S depth) EnumCase this (VString s) h = Returns c h)) /\
      (forall x, enum_get baseEnum k = VNumber x ->
         exists t,
           call_method EnumCase_type h c "toString" [] = Some (VString t) /\
           call_from (S depth) EnumCase this (VString t) h <> Returns c h).
Proof.
  intros Hall.
  pose proof (avoids_weaken baseEnum ["cases"; "map"; "from"] ["cases"; "map"]
                eq_refl Hall) as Hfree.
  pose proof (avoids_weaken baseEnum ["cases"; "map"; "from"] ["from"]
                eq_refl Hall) as Hfrom.
  eexists _, _. split; [by apply createBackedEnum_spec|].
  intros depth j k Hk c. subst c.
  rewrite (cases_index _ _ _ Hfree _ _ Hk).
  assert (forall v, enum_get baseEnum k = v ->
            call_method EnumCase_type (built_heap baseEnum EnumCase h0)
              (VRef (List.length h0 + 3 + j)) "toString" []
            = Some (String_ v)) as Hto.
  { intros v <-. unfold call_method.
    by rewrite (built_instance _ _ _ _ _ Hk). }
  split.
  - intros s Hs. split; [by rewrite (Hto _ Hs)|].
    intros Hlast. rewrite <- Hs. by apply call_from_value.
  - intros x Hx. assert (exists t, String_ (VNumber x) = VString t) as [t Ht]
      by (destruct x as [|[]|z]; by eexists).
    exists t. split; [by rewrite (Hto _ Hx), Ht|].
    destruct (call_from_primitive_shape baseEnum EnumCase h0 Hfree Hfrom depth
                (PString t)) as (r & Hr & Hshape).
    simpl in Hr. rewrite Hr. intros [= ->].
    destruct Hshape as [?|(j' & k' & Hk' & _ & Hv & Heq)]; [done|].
    injection Heq as Heq. assert (j' = j) as -> by lia.
    rewrite Hk in Hk'. injection Hk' as <-. simpl in Hv. congruence.
Qed.

Lemma toString_then_from_witness :
  exists this h,
    createBackedEnum StatusEnum EnumCase [] = Returns this h /\
    forall depth j k,
      enum_keys StatusEnum !! j = Some k ->
      let c := index h (read h this "cases") j in
      (forall s, enum_get StatusEnum k = VString s ->
         call_method EnumCase_type h c "toString" [] = Some (VString s) /\
         (last_with_value StatusEnum j k ->
          call_from (S depth) EnumCase this (VString s) h = Returns c h)) /\
      (forall x, enum_get StatusEnum k = VNumber x ->
         exists t,
           call_method EnumCase_type h c "toString" [] = Some (VString t) /\
           call_from (S depth) EnumCase this (VString t) h <> Returns c h).
Proof. apply toString_then_from. reflexivity. Defined.

(** *** The reverse index and the own keys *)

Section Tables.
Variable baseEnum : EnumLike.

Lemma entries_set_keys (es : list (jsval * jsval)) k v :
  (entries_set es k v).*1 = if decide (k ∈ es.*1) then es.*1 else es.*1 ++ [k].
Proof.
  induction es as [|[k0 v0] t IH].
  { simpl. destruct (decide (k ∈ [])) as [Hin|_]; [by apply elem_of_nil in Hin|done]. }
  cbn [entries_set]. unfold same_value_zero.
  case_bool_decide as Hk; rewrite !fmap_cons; cbn [fst].
  - subst k0. by rewrite decide_True by by left.
  - rewrite IH. destruct (decide (k ∈ t.*1)) as [Hin|Hout].
    + by rewrite decide_True by by right.
    + rewrite decide_False; [done|].
      intros [?|?]%elem_of_cons; [congruence|done].
Qed.

Lemma reverse_index_keys (bs : list (string * loc)) : forall es,
  NoDup es.*1 ->
  NoDup (reverse_index baseEnum bs es).*1 /\
  forall v, v ∈ (reverse_index baseEnum bs es).*1 <->
            v ∈ es.*1 \/ exists b, b ∈ bs /\ enum_get baseEnum b.1 = v.
Proof.
  induction bs as [|b bs IH]; intros es Hnd.
  - split; [done|]. intros v. split; [by left|].
    intros [?|(b & Hb & _)]; [done|]. by apply elem_of_nil in Hb.
  - simpl.
    assert (NoDup (entries_set es (enum_get baseEnum b.1) (VRef b.2)).*1) as Hnd'.
    { rewrite entries_set_keys. case_decide; [done|].
      apply NoDup_app. split; [done|]. split; [|apply NoDup_singleton].
      intros x Hx Hx'. apply list_elem_of_singleton in Hx'. by subst. }
    destruct (IH _ Hnd') as [Hnd'' Hmem]. split; [done|].
    intros v. rewrite Hmem, entries_set_keys. split.
    + intros [Hin|(b' & Hb' & Hv)].
      * case_decide; [by left|].
        apply elem_of_app in Hin as [?|Hin]; [by left|].
        apply list_elem_of_singleton in Hin. right. exists b. split; [by left|done].
      * right. exists b'. split; [by right|done].
    + intros [Hin|(b' & Hb' & Hv)].
      * left. case_decide; [done|]. apply elem_of_app. by left.
      * apply elem_of_cons in Hb' as [->|Hb'].
        -- left. case_decide; [by subst|]. apply elem_of_app. right.
           subst. by apply list_elem_of_singleton.
        -- right. by exists b'.
Qed.

Lemma prop_define_keys (props : list (string * jsval)) k v :
  k ∉ props.*1 -> (prop_define props k v).*1 = props.*1 ++ [k].
Proof.
  induction props as [|[k0 v0] t IH]; [done|].
  rewrite fmap_cons. cbn [fst prop_define].
  intros [Hne Hout]%not_elem_of_cons.
  rewrite decide_False by done. rewrite fmap_cons. cbn [fst].
  by rewrite IH.
Qed.

Lemma accessors_keys (bs : list (string * loc)) : forall props,
  NoDup bs.*1 -> (forall k, k ∈ bs.*1 -> k ∉ props.*1) ->
  (accessors bs props).*1 = props.*1 ++ bs.*1.
Proof.
  induction bs as [|[k i] bs IH]; intros props Hnd Hfresh.
  - by rewrite app_nil_r.
  - simpl in *. apply NoDup_cons in Hnd as [Hk Hnd].
    unfold accessors. simpl. fold (accessors bs (prop_define props k (VRef i))).
    rewrite IH; [|done|].
    + rewrite prop_define_keys by (apply Hfresh; by left).
      by rewrite <- app_assoc.
    + intros k' Hk'. rewrite prop_define_keys by (apply Hfresh; by left).
      intros [Hin|Hin%list_elem_of_singleton]%elem_of_app.
      * by apply (Hfresh k'); [right|].
      * by subst.
Qed.
End Tables.

(** X12: the reverse index has one entry for each backing value that occurs,
    whatever the number of cases that carry it, and every entry leads to a
    case of the collection with exactly that value. *)
Theorem reverse_index_entries baseEnum CaseClass h0 :
  avoids ["cases"; "map"] baseEnum = true ->
  exists this h ents,
    createBackedEnum baseEnum CaseClass h0 = Returns this h /\
    map_entries h (read h this "map") = Some ents /\
    NoDup ents.*1 /\
    (forall v, v ∈ ents.*1 <->
               exists k, k ∈ enum_keys baseEnum /\ enum_get baseEnum k = v) /\
    (forall v c, (v, c) ∈ ents ->
       exists l k, c = VRef l /\ k ∈ enum_keys baseEnum /\
                   h !! l = Some (OCase CaseClass k v)).
Proof.
  intros Hfree. eexists _, _, _. split; [by apply createBackedEnum_spec|].
  split.
  { unfold read. rewrite own_map by done. unfold default, from_option, id.
    unfold map_entries. by rewrite built_map. }
  destruct (reverse_index_keys baseEnum
              (bindings (enum_keys baseEnum) (List.length h0 + 3)) [])
    as [Hnd Hmem]; [constructor|].
  split; [done|]. split.
  - intros v. rewrite Hmem. split.
    + intros [Hin|([k i] & Hb & Hv)]; [by apply elem_of_nil in Hin|].
      apply bindings_elem in Hb as (j & Hj & _).
      exists k. split; [|done]. apply list_elem_of_lookup. by exists j.
    + intros (k & Hk & Hv). right.
      apply list_elem_of_lookup in Hk as [j Hj].
      exists (k, List.length h0 + 3 + j). split; [|done].
      apply list_elem_of_lookup. exists j. by apply bindings_lookup.
  - intros v c Hin.
    apply reverse_index_elem in Hin as [Hin|(k & i & Hb & -> & ->)];
      [by apply elem_of_nil in Hin|].
    apply bindings_elem in Hb as (j & Hj & ->).
    exists (List.length h0 + 3 + j), k. split; [done|].
    split; [apply list_elem_of_lookup; by exists j|by apply built_instance].
Qed.

Lemma reverse_index_entries_witness :
  exists this h ents,
    createBackedEnum TwinEnum EnumCase [] = Returns this h /\
    map_entries h (read h this "map") = Some ents /\
    NoDup ents.*1 /\
    (forall v, v ∈ ents.*1 <->
               exists k, k ∈ enum_keys TwinEnum /\ enum_get TwinEnum k = v) /\
    (forall v c, (v, c) ∈ ents ->
       exists l k, c = VRef l /\ k ∈ enum_keys TwinEnum /\
                   h !! l = Some (OCase EnumCase k v)).
Proof. apply reverse_index_entries. reflexivity. Defined.

(** X13: [Object.keys(collection)] lists [cases] and [map] and then the
    case-names, each once and in the order of the definition. *)
Theorem collection_own_keys baseEnum CaseClass h0 :
  NoDup (Object_keys baseEnum) ->
  avoids ["cases"; "map"] baseEnum = true ->
  exists this h,
    createBackedEnum baseEnum CaseClass h0 = Returns this h /\
    collection_keys h this = "cases" :: "map" :: enum_keys baseEnum.
Proof.
  intros Hnd Hfree. eexists _, _. split; [by apply createBackedEnum_spec|].
  unfold collection_keys. rewrite built_this.
  change (map fst ?l) with (l.*1).
  rewrite accessors_keys.
  - by rewrite bindings_keys.
  - rewrite bindings_keys. by apply keys_NoDup.
  - rewrite bindings_keys. intros k Hk Hin. simpl in Hin.
    apply (avoids_elem baseEnum ["cases"; "map"] k Hfree); [|done].
    by rewrite !elem_of_cons in *.
Qed.

Lemma collection_own_keys_witness :
  exists this h,
    createBackedEnum RoleEnum EnumCase [] = Returns this h /\
    collection_keys h this = "cases" :: "map" :: enum_keys RoleEnum.
Proof.
  apply collection_own_keys; [exact RoleEnum_NoDup | reflexivity].
Defined.

(** *** Cases of another collection *)

(** X14: when a second collection is built with the same case class, the
    first collection keeps its cases, and the second one's [from] accepts
    them: [B.from(a)] is [B.from(a.value)] for every case [a] of the
    first. *)
Theorem from_accepts_foreign_cases baseEnumA baseEnumB CaseClass h0 :
  avoids ["cases"; "map"] baseEnumA = true ->
  avoids ["cases"; "map"; "from"] baseEnumB = true ->
  exists thisA hA thisB hB,
    createBackedEnum baseEnumA CaseClass h0 = Returns thisA hA /\
    createBackedEnum baseEnumB CaseClass hA = Returns thisB hB /\
    thisA <> thisB /\
    forall depth j k,
      enum_keys baseEnumA !! j = Some k ->
      exists a,
        index hA (read hA thisA "cases") j = a /\
        index hB (read hB thisA "cases") j = a /\
        member_value a hB = Returns (enum_get baseEnumA k) hB /\
        instanceof hB a CaseClass = true /\
        call_from (S (S depth)) CaseClass thisB a hB
        = call_from (S depth) CaseClass thisB (enum_get baseEnumA k) hB.
Proof.
  intros HfreeA HallB.
  pose proof (avoids_weaken baseEnumB ["cases"; "map"; "from"] ["cases"; "map"]
                eq_refl HallB) as HfreeB.
  pose proof (avoids_weaken baseEnumB ["cases"; "map"; "from"] ["from"]
                eq_refl HallB) as HfromB.
  eexists _, _, _, _. split; [by apply createBackedEnum_spec|].
  split; [by apply createBackedEnum_spec|].
  set (hA := built_heap baseEnumA CaseClass h0).
  set (hB := built_heap baseEnumB CaseClass hA).
  assert (forall l o, hA !! l = Some o -> hB !! l = Some o) as Hframe.
  { intros l o Hl. subst hB. unfold built_heap. by apply lookup_app_l_Some. }
  split.
  { subst hA. unfold built_heap. rewrite length_app. simpl. lia. }
  intros depth j k Hk. exists (VRef (List.length h0 + 3 + j)).
  pose proof (built_instance baseEnumA CaseClass h0 j k Hk) as Hinst.
  fold hA in Hinst. pose proof (Hframe _ _ Hinst) as HinstB.
  split; [by apply (cases_index _ _ _ HfreeA j k)|].
  split.
  { unfold read, own_property.
    rewrite (Hframe _ _ (built_this baseEnumA CaseClass h0)).
    pose proof (own_cases baseEnumA CaseClass h0 HfreeA) as Hc.
    unfold own_property in Hc. rewrite built_this in Hc. rewrite Hc.
    unfold default, from_option, id, index. cbv iota.
    rewrite (Hframe _ _ (built_array baseEnumA CaseClass h0)).
    rewrite list_lookup_fmap.
    by rewrite (proj1 (bindings_lookup _ (List.length h0 + 3) j k) Hk). }
  split; [unfold member_value; by rewrite HinstB|].
  split.
  { unfold instanceof. rewrite HinstB. apply bool_decide_eq_true_2. by left. }
  subst hB. rewrite !call_from_method by done.
  by apply (from_instance _ _ _ _ CaseClass k); [|left].
Qed.

Lemma from_accepts_foreign_cases_witness :
  exists thisA hA thisB hB,
    createBackedEnum RoleEnum EnumCase [] = Returns thisA hA /\
    createBackedEnum TwinEnum EnumCase hA = Returns thisB hB /\
    thisA <> thisB /\
    forall depth j k,
      enum_keys RoleEnum !! j = Some k ->
      exists a,
        index hA (read hA thisA "cases") j = a /\
        index hB (read hB thisA "cases") j = a /\
        member_value a hB = Returns (enum_get RoleEnum k) hB /\
        instanceof hB a EnumCase = true /\
        call_from (S (S depth)) EnumCase thisB a hB
        = call_from (S depth) EnumCase thisB (enum_get RoleEnum k) hB.
Proof. apply from_accepts_foreign_cases; reflexivity. Defined.

(** [Twin.from(Role.ADMIN)] is [Twin.B], the last case of [{A: 1, B: 1}]
    with the value 1. *)
Example foreign_case_sample :
  exists hA hB,
    createBackedEnum RoleEnum EnumCase [] = Returns 0 hA /\
    createBackedEnum TwinEnum EnumCase hA = Returns 6 hB /\
    call_from 2 EnumCase 6 (read hB 0 "ADMIN") hB = Returns (read hB 6 "B") hB.
Proof. eexists _, _. repeat split. Qed.
